(** * A shallow embedding of [CNN.cpp]: the layer chain of a small
      feed-forward network, its forward and backward passes.

    The C++ program keeps its layers on the heap, links them with raw
    [prev]/[next] pointers and mutates their vectors in place.  The
    embedding keeps that shape: a heap maps addresses to layer records,
    every method takes the heap and returns an [outcome] holding the new
    heap, and every [operator[]] is bounds-checked by the model because
    the C++ one is not (an out-of-range index is undefined behaviour).

    Arithmetic on [float] and [double] is kept abstract ([FloatOps]): no
    algebraic law is assumed, so what is proved for every instance holds
    for IEEE-754 arithmetic as well as for the real numbers. *)

From Stdlib Require Import Reals Lra.
From stdpp Require Import gmap list strings.

Set Default Proof Using "Type".

(** ** Arithmetic *)

(** The operations the program applies to [float] ([float_t]) and, inside
    [std::inner_product], to [double]. *)
Class FloatOps := {
  float_t : Type;
  double_t : Type;
  f_zero : float_t;                     (* 0.0f, also a value-initialised element *)
  f_one : float_t;                      (* 1.0f, and the int 1 converted *)
  f_tenth : float_t;                    (* 0.1f *)
  fadd : float_t → float_t → float_t;
  fsub : float_t → float_t → float_t;
  fmul : float_t → float_t → float_t;
  fdiv : float_t → float_t → float_t;
  fneg : float_t → float_t;
  fexp : float_t → float_t;             (* exp of <cmath> *)
  d_zero : double_t;                    (* the literal 0.0 *)
  dadd : double_t → double_t → double_t;
  f2d : float_t → double_t;             (* float -> double promotion *)
  d2f : double_t → float_t;             (* double -> float conversion *)
}.

(** The random sources of [init_weights]: [std::random_device] seeds a
    fresh [std::mt19937], from which a uniform distribution draws. *)
Class RandomOps `{FloatOps} := {
  random_device : Type;
  mt19937 : Type;
  seed_gen : random_device → mt19937 * random_device;   (* gen(rd()) *)
  dis : mt19937 → float_t * mt19937;                    (* float r = dis(gen) *)
}.

(** typedef std::vector<float_t> vec_t *)
Abbreviation vec_t := (list float_t).

(** ** Outcomes *)

(** What a call can do: return, throw [std::runtime_error], or run into
    undefined behaviour.  [OutOfFuel] belongs to the model only: the
    recursion along the chain is bounded by a fuel argument. *)
Inductive outcome (A : Type) : Type :=
  | Ok (a : A)
  | Thrown (what : string)
  | Undefined
  | OutOfFuel.
Arguments Ok {A} a.
Arguments Thrown {A} what.
Arguments Undefined {A}.
Arguments OutOfFuel {A}.

#[global] Instance outcome_ret : MRet outcome := @Ok.
#[global] Instance outcome_bind : MBind outcome := λ A B f m,
  match m with
  | Ok a => f a
  | Thrown s => Thrown s
  | Undefined => Undefined
  | OutOfFuel => OutOfFuel
  end.

(** [v[i]] read and written through [operator[]]. *)
Definition vget {A} (v : list A) (i : nat) : outcome A :=
  match v !! i with
  | Some x => Ok x
  | None => Undefined
  end.

Definition vset {A} (v : list A) (i : nat) (x : A) : outcome (list A) :=
  if decide (i < length v) then Ok (<[i := x]> v) else Undefined.

(** [v.resize(n)]: keeps the first [n] elements, pads with [d]. *)
Definition resize {A} (n : nat) (d : A) (v : list A) : list A :=
  take n v ++ replicate (n - length v) d.

(** [for (size_t i = 0; i < n; i++) body], threading the state [s]. *)
Fixpoint for_each {S} (idx : list nat) (body : nat → S → outcome S) (s : S)
    : outcome S :=
  match idx with
  | [] => Ok s
  | i :: idx' => s' ← body i s; for_each idx' body s'
  end.

Definition for_loop {S} (n : nat) (body : nat → S → outcome S) (s : S)
    : outcome S :=
  for_each (seq 0 n) body s.

(** Two ways to read an outcome against a property [P] of the state:
    [returns_with P o] says that [o], if it returns, returns a state in
    [P]; [keeps P o] says moreover that [o] is no exception. *)
Definition returns_with {S} (P : S → Prop) (o : outcome S) : Prop :=
  match o with
  | Ok s' => P s'
  | _ => True
  end.

Definition keeps {S} (P : S → Prop) (o : outcome S) : Prop :=
  match o with
  | Ok s' => P s'
  | Thrown _ => False
  | Undefined | OutOfFuel => True
  end.

(** ** Free functions *)

Section free_functions.
Context `{FloatOps}.

(** float sigmoid(float x) { return 1 / (1 + exp(-x)); } *)
Definition sigmoid (x : float_t) : float_t :=
  fdiv f_one (fadd f_one (fexp (fneg x))).

(** float df(float x) { return x * (1 - x); } *)
Definition df (x : float_t) : float_t := fmul x (fsub f_one x).

(** float activation(float x) { return sigmoid(x); } *)
Definition activation (x : float_t) : float_t := sigmoid x.

(** std::inner_product(a.begin(), a.end(), b.begin(), 0.0): the
    accumulator is a double, each product a float. *)
Fixpoint inner_product (a b : vec_t) (acc : double_t) : double_t :=
  match a, b with
  | x :: a', y :: b' => inner_product a' b' (dadd acc (f2d (fmul x y)))
  | _, _ => acc
  end.

(** The value [dot] returns when it returns. *)
Definition dot_value (a b : vec_t) : float_t :=
  d2f (inner_product a b d_zero).

(** float dot(vec_t a, vec_t b) *)
Definition dot (a b : vec_t) : outcome float_t :=
  if decide (length a ≠ length b) then Thrown "different sizes"
  else Ok (dot_value a b).
End free_functions.

(** ** Layers *)

(** A [Layer*]; the null pointer is [None] of [option ptr]. *)
Abbreviation ptr := positive (only parsing).

Module Layer.
Section defs.
Context `{FloatOps}.

(** The sizes are [uint32_t] in the program; it only compares them with
    indices and hands them to [resize], so they are natural numbers. *)
Record t := mk {
  prev : option ptr;
  next : option ptr;
  values : vec_t;
  biases : vec_t;
  weights : list vec_t;
  in_size : nat;
  out_size : nat;
  weight_size : nat;
  bias_size : nat;
}.

Definition set_prev (l : t) (p : option ptr) : t :=
  mk p (next l) (values l) (biases l) (weights l)
     (in_size l) (out_size l) (weight_size l) (bias_size l).
Definition set_next (l : t) (p : option ptr) : t :=
  mk (prev l) p (values l) (biases l) (weights l)
     (in_size l) (out_size l) (weight_size l) (bias_size l).
Definition set_values (l : t) (v : vec_t) : t :=
  mk (prev l) (next l) v (biases l) (weights l)
     (in_size l) (out_size l) (weight_size l) (bias_size l).
Definition set_weights (l : t) (w : list vec_t) : t :=
  mk (prev l) (next l) (values l) (biases l) w
     (in_size l) (out_size l) (weight_size l) (bias_size l).

(** The constructor: both vectors are resized to [in_size]. *)
Definition new (in_size out_size weight_size bias_size : nat) : t :=
  mk None None (resize in_size f_zero []) (resize in_size f_zero []) []
     in_size out_size weight_size bias_size.
End defs.
End Layer.

Abbreviation heap := (gmap positive Layer.t) (only parsing).

Section layer_methods.
Context `{FloatOps}.

(** Dereferencing a pointer that holds no layer is undefined. *)
Definition load (h : heap) (p : ptr) : outcome Layer.t :=
  match h !! p with
  | Some l => Ok l
  | None => Undefined
  end.

(** void add_tail(shared_ptr<Layer> layer)
    { next = layer.get(); layer->prev = this; } *)
Definition add_tail (this : ptr) (layer : option ptr) (h : heap)
    : outcome heap :=
  l ← load h this;
  let h1 := <[this := Layer.set_next l layer]> h in
  match layer with
  | None => Undefined
  | Some q =>
      ql ← load h1 q;
      Ok (<[q := Layer.set_prev ql (Some this)]> h1)
  end.

(** One iteration of the loop of [forward_propogate]:
      vec_t w = weights[i];
      float d = dot(w, values) + next->biases[i];
      next->values[i] = activation(d);
    The two operands of [+] are unsequenced in C++; the model evaluates
    the call of [dot] first. *)
Definition forward_body (this nxt : ptr) (i : nat) (h : heap)
    : outcome heap :=
  l ← load h this;
  w ← vget (Layer.weights l) i;
  x ← dot w (Layer.values l);
  nl ← load h nxt;
  b ← vget (Layer.biases nl) i;
  let d := fadd x b in
  vs ← vset (Layer.values nl) i (activation d);
  Ok (<[nxt := Layer.set_values nl vs]> h).

(** for (size_t i = 0; i < out_size; i++) ... *)
Definition forward_loop (this nxt : ptr) (out_size : nat) (h : heap)
    : outcome heap :=
  for_loop out_size (forward_body this nxt) h.

(** void forward_propogate(): the guard, the loop, and the call on
    [next] with the heap the loop leaves. *)
Fixpoint forward_propogate (fuel : nat) (this : ptr) (h : heap)
    : outcome heap :=
  match fuel with
  | 0 => OutOfFuel
  | S fuel' =>
      l ← load h this;
      match Layer.next l with
      | None => Ok h
      | Some nxt =>
          h' ← forward_loop this nxt (Layer.out_size l) h;
          forward_propogate fuel' nxt h'
      end
  end.

(** The body of the inner loop of [back_propogate], for the row
    [w = prev->weights[i]] and the column [j]:
      w[j] = w[j] + (0.1f * delta[i] * prev->values[j]);
      prev_delta[j] = prev->values[j] * (1.0f - prev->values[j])
                      * w[j] * delta[i]; *)
Definition back_inner_body (prv : ptr) (delta : vec_t) (i j : nat)
    (s : heap * vec_t) : outcome (heap * vec_t) :=
  let '(h, prev_delta) := s in
  pl ← load h prv;
  w ← vget (Layer.weights pl) i;
  wj ← vget w j;
  di ← vget delta i;
  vj ← vget (Layer.values pl) j;
  let wj' := fadd wj (fmul (fmul f_tenth di) vj) in
  w' ← vset w j wj';
  ws' ← vset (Layer.weights pl) i w';
  let h' := <[prv := Layer.set_weights pl ws']> h in
  pd' ← vset prev_delta j (fmul (fmul (fmul vj (fsub f_one vj)) wj') di);
  Ok (h', pd').

(** The body of the outer loop: bind the row, run over its columns.
      vec_t& w = prev->weights[i];
      for (size_t j = 0; j < w.size(); j++) ... *)
Definition back_outer_body (prv : ptr) (delta : vec_t) (i : nat)
    (s : heap * vec_t) : outcome (heap * vec_t) :=
  pl ← load s.1 prv;
  w ← vget (Layer.weights pl) i;
  for_loop (length w) (back_inner_body prv delta i) s.

(** vec_t prev_delta; prev_delta.resize(prev->in_size);
    for (size_t i = 0; i < in_size; i++) ...
    The result is the heap and [prev_delta] as the loops leave them. *)
Definition back_loops (prv : ptr) (delta : vec_t) (in_size : nat) (h : heap)
    : outcome (heap * vec_t) :=
  pl ← load h prv;
  let prev_delta := resize (Layer.in_size pl) f_zero [] in
  for_loop in_size (back_outer_body prv delta) (h, prev_delta).

(** void back_propogate(vec_t delta): the guard, the loops, and the call
    on [prev] with the [prev_delta] the loops leave. *)
Fixpoint back_propogate (fuel : nat) (this : ptr) (delta : vec_t) (h : heap)
    : outcome heap :=
  match fuel with
  | 0 => OutOfFuel
  | S fuel' =>
      l ← load h this;
      match Layer.prev l with
      | None => Ok h
      | Some prv =>
          s ← back_loops prv delta (Layer.in_size l) h;
          back_propogate fuel' prv s.2 s.1
      end
  end.

Context `{!RandomOps}.

(** The loops of [init_weights] over the rows and the columns:
      weights[i].resize(in_size);
      for j: float r = dis(gen); weights[i][j] = r; *)
Definition init_inner_body (i j : nat) (s : list vec_t * mt19937)
    : outcome (list vec_t * mt19937) :=
  let '(ws, gen) := s in
  let '(r, gen') := dis gen in
  w ← vget ws i;
  w' ← vset w j r;
  ws' ← vset ws i w';
  Ok (ws', gen').

Definition init_outer_body (in_size : nat) (i : nat)
    (s : list vec_t * mt19937) : outcome (list vec_t * mt19937) :=
  w ← vget s.1 i;
  ws ← vset s.1 i (resize in_size f_zero w);
  for_loop in_size (init_inner_body i) (ws, s.2).

(** void init_weights(): only the weight matrix of [this] is written. *)
Definition init_weights (this : ptr) (s : heap * random_device)
    : outcome (heap * random_device) :=
  let '(h, rd) := s in
  l ← load h this;
  match Layer.next l with
  | None => Ok (h, rd)
  | Some _ =>
      let '(gen, rd') := seed_gen rd in
      let ws := resize (Layer.out_size l) [] (Layer.weights l) in
      r ← for_loop (Layer.out_size l) (init_outer_body (Layer.in_size l))
            (ws, gen);
      Ok (<[this := Layer.set_weights l r.1]> h, rd')
  end.
End layer_methods.

(** ** The network *)

Module CNN.
Section defs.
Context `{FloatOps}.

(** vector<Ref<Layer>> layers: a [shared_ptr] may be null. *)
Record t := mk { layers : list (option ptr) }.

(** bool empty() const *)
Definition empty (c : t) : bool := bool_decide (length (layers c) = 0).

(** Layer* head() const { return empty() ? 0 : layers[0].get(); } *)
Definition head (c : t) : option ptr :=
  if empty c then None else mjoin (layers c !! 0).

(** Layer* tail() const
    { return empty() ? 0 : layers[layers.size() - 1].get(); } *)
Definition tail (c : t) : option ptr :=
  if empty c then None else mjoin (layers c !! (length (layers c) - 1)).

(** void add(shared_ptr<Layer> layer) *)
Definition add (layer : option ptr) (s : t * heap) : outcome (t * heap) :=
  let '(c, h) := s in
  h' ← match tail c with
       | Some tl => add_tail tl layer h
       | None => Ok h
       end;
  Ok (mk (layers c ++ [layer]), h').

(** A sequence of calls of [add], one per element of [ls]. *)
Fixpoint add_all (ls : list (option ptr)) (s : t * heap)
    : outcome (t * heap) :=
  match ls with
  | [] => Ok s
  | layer :: ls' => s' ← add layer s; add_all ls' s'
  end.

(** void forward_propogate() { head()->forward_propogate(); } *)
Definition forward_propogate (fuel : nat) (c : t) (h : heap)
    : outcome heap :=
  match head c with
  | None => Undefined
  | Some hd => forward_propogate fuel hd h
  end.

(** One iteration of the loop of [back_propogate]:
      delta[i] = tail()->values[i] * (1.0f - tail()->values[i])
                 * (labels[i] - tail()->values[i]); *)
Definition delta_body (tl : ptr) (labels : vec_t) (h : heap) (i : nat)
    (delta : vec_t) : outcome vec_t :=
  l ← load h tl;
  v ← vget (Layer.values l) i;
  y ← vget labels i;
  vset delta i (fmul (fmul v (fsub f_one v)) (fsub y v)).

(** vec_t delta(tail()->in_size);
    for (size_t i = 0; i < tail()->in_size; i++) ... *)
Definition initial_delta (tl : ptr) (labels : vec_t) (h : heap)
    : outcome vec_t :=
  l ← load h tl;
  let delta := resize (Layer.in_size l) f_zero [] in
  for_loop (Layer.in_size l) (delta_body tl labels h) delta.

(** void back_propogate(vec_t labels) *)
Definition back_propogate (fuel : nat) (c : t) (labels : vec_t) (h : heap)
    : outcome heap :=
  match tail c with
  | None => Undefined
  | Some tl =>
      delta ← initial_delta tl labels h;
      back_propogate fuel tl delta h
  end.

(** vec_t& get_output() { return tail()->values; } *)
Definition get_output (c : t) (h : heap) : outcome vec_t :=
  match tail c with
  | None => Undefined
  | Some tl => l ← load h tl; Ok (Layer.values l)
  end.

Context `{!RandomOps}.

(** void init() { for (auto& layer : layers) layer->init_weights(); } *)
Fixpoint init_layers (ls : list (option ptr)) (s : heap * random_device)
    : outcome (heap * random_device) :=
  match ls with
  | [] => Ok s
  | None :: _ => Undefined
  | Some p :: ls' => s' ← init_weights p s; init_layers ls' s'
  end.

Definition init (c : t) (s : heap * random_device)
    : outcome (heap * random_device) :=
  init_layers (layers c) s.
End defs.
End CNN.

(** ** Shapes *)

Section shapes.
Context `{FloatOps}.

(** The shape invariant of the data model: a layer holds [in_size]
    activations; a layer with a successor has a weight matrix of
    [out_size] rows of [in_size] columns, and its successor holds
    [out_size] activations. *)
Definition linked (l nl : Layer.t) : Prop :=
  length (Layer.weights l) = Layer.out_size l ∧
  Forall (λ w : vec_t, length w = Layer.in_size l) (Layer.weights l) ∧
  length (Layer.values nl) = Layer.out_size l.

Definition shape_invariant (h : heap) : Prop :=
  ∀ p l, h !! p = Some l →
    length (Layer.values l) = Layer.in_size l ∧
    ∀ q, Layer.next l = Some q →
      ∃ nl, h !! q = Some nl ∧ linked l nl.

(** The activations [forward_propogate] leaves in the successor [nl] of
    [l] after [k] iterations of its loop. *)
Definition forwarded (l nl : Layer.t) (k : nat) (vs : vec_t) : Prop :=
  length vs = length (Layer.values nl) ∧
  (∀ i, i < k → ∃ w b,
      Layer.weights l !! i = Some w ∧ Layer.biases nl !! i = Some b ∧
      vs !! i = Some (sigmoid (fadd (dot_value w (Layer.values l)) b))) ∧
  (∀ i, k ≤ i → vs !! i = Layer.values nl !! i).

(** What the inner loop of [back_propogate] makes of a row [w] of the
    predecessor's weights, for the error signal [d] of the neuron the
    row leads to and the predecessor's activations [vs]. *)
Definition updated_row (d : float_t) (vs w : vec_t) : vec_t :=
  zip_with (λ wj vj, fadd wj (fmul (fmul f_tenth d) vj)) w vs.

(** What it writes to [prev_delta], from the row [w'] as updated. *)
Definition row_delta (d : float_t) (vs w' : vec_t) : vec_t :=
  zip_with (λ vj wj', fmul (fmul (fmul vj (fsub f_one vj)) wj') d) vs w'.

(** The weights after the outer loop has run over the rows [0..n-1]. *)
Definition updated_weights (n : nat) (delta vs : vec_t) (ws : list vec_t)
    : list vec_t :=
  take n (zip_with (λ d w, updated_row d vs w) delta ws) ++ drop n ws.

(** [prev_delta] after the outer loop has run over the rows [0..n-1]:
    what the last row wrote, or the zeros of [resize] when [n = 0]. *)
Definition final_delta (n n_prev : nat) (delta vs : vec_t) (ws : list vec_t)
    : vec_t :=
  match n with
  | 0 => resize n_prev f_zero []
  | S m =>
      match delta !! m, ws !! m with
      | Some d, Some w => row_delta d vs (updated_row d vs w)
      | _, _ => []
      end
  end.

(** The error signal of the output layer, from its activations and
    the labels. *)
Definition output_delta (vs labels : vec_t) : vec_t :=
  zip_with (λ v y, fmul (fmul v (fsub f_one v)) (fsub y v)) vs labels.

(** Every layer of [h] is still there in [h'], with the biases it had. *)
Definition same_biases (h h' : heap) : Prop :=
  ∀ p l, h !! p = Some l →
    ∃ l', h' !! p = Some l' ∧ Layer.biases l' = Layer.biases l.

(** The layers [ps], in this order, are wired into a chain in [h]. *)
Definition wired (ps : list ptr) (h : heap) : Prop :=
  ∀ i p, ps !! i = Some p →
    ∃ l, h !! p = Some l ∧
      (∀ q, ps !! S i = Some q → Layer.next l = Some q) ∧
      (∀ k q, i = S k → ps !! k = Some q → Layer.prev l = Some q).

(** Following [next] from [p] until [target] is met, counting layers. *)
Fixpoint chain_length (fuel : nat) (h : heap) (p target : ptr) : option nat :=
  match fuel with
  | 0 => None
  | S fuel' =>
      if decide (p = target) then Some 1
      else l ← h !! p; q ← Layer.next l;
           n ← chain_length fuel' h q target; Some (S n)
  end.
End shapes.

(** ** Two instances, for running the definitions *)

(** The real numbers, the arithmetic the network is described in. *)
Definition real_ops : FloatOps := {|
  float_t := R; double_t := R;
  f_zero := 0%R; f_one := 1%R; f_tenth := (1 / 10)%R;
  fadd := Rplus; fsub := Rminus; fmul := Rmult; fdiv := Rdiv;
  fneg := Ropp; fexp := exp;
  d_zero := 0%R; dadd := Rplus; f2d := λ x, x; d2f := λ x, x;
|}.

(** A generator that alternates between 1/2 and -1/2. *)
Definition real_random : @RandomOps real_ops := {|
  random_device := nat; mt19937 := nat;
  seed_gen := λ rd, (rd, S rd);
  dis := λ g, ((if Nat.even g then 1 / 2 else - (1 / 2))%R : @float_t real_ops, S g);
|}.

(** ** A small network over the reals, for running the definitions *)

Module Sample.
(** Two inputs, two output neurons; the weights are zero, the input
    layer carries biases of its own that differ from the output's. *)
Definition input : @Layer.t real_ops :=
  @Layer.mk real_ops None (Some 2%positive) [1; 1]%R [1; 1]%R
    [[0; 0]; [0; 0]]%R 2 2 0 0.

Definition output : @Layer.t real_ops :=
  @Layer.mk real_ops (Some 1%positive) None [1 / 2; 1 / 2]%R [0; 0]%R []
    2 1 0 0.

(** A layer as the constructor leaves it, linked to nothing. *)
Definition spare : @Layer.t real_ops := @Layer.new real_ops 1 1 0 0.

Definition net_heap : gmap positive (@Layer.t real_ops) :=
  <[1%positive := input]> (<[2%positive := output]> ∅).

Definition net : CNN.t := CNN.mk [Some 1%positive; Some 2%positive].

Definition spare_heap : gmap positive (@Layer.t real_ops) :=
  <[3%positive := spare]> net_heap.

(** The three layers of [main], constructed and not yet added. *)
Definition main_heap : gmap positive (@Layer.t real_ops) :=
  <[1%positive := @Layer.new real_ops 2 4 0 0]>
    (<[2%positive := @Layer.new real_ops 4 1 0 0]>
       (<[3%positive := @Layer.new real_ops 1 1 0 0]> ∅)).

(** The same three layers after the three calls of [add] in [main]. *)
Definition main_net : CNN.t :=
  CNN.mk [Some 1%positive; Some 2%positive; Some 3%positive].

Definition main_wired : gmap positive (@Layer.t real_ops) :=
  <[1%positive := Layer.set_next (@Layer.new real_ops 2 4 0 0)
                    (Some 2%positive)]>
    (<[2%positive := Layer.set_next
                       (Layer.set_prev (@Layer.new real_ops 4 1 0 0)
                          (Some 1%positive))
                       (Some 3%positive)]>
       (<[3%positive := Layer.set_prev (@Layer.new real_ops 1 1 0 0)
                          (Some 2%positive)]> ∅)).
End Sample.

(** ** The rest of the program *)

Section more_functions.
Context `{FloatOps}.

(** std::accumulate(v.begin(), v.end(), 0.0): a double accumulator, to
    which each float is added. *)
Fixpoint accumulate (v : vec_t) (acc : double_t) : double_t :=
  match v with
  | [] => acc
  | x :: v' => accumulate v' (dadd acc (f2d x))
  end.

(** float cost(vec_t a, vec_t b): the squared differences are stored as
    floats in [diff], then accumulated. *)
Definition cost (a b : vec_t) : outcome float_t :=
  if decide (length a ≠ length b) then Thrown "different sizes"
  else
    let diff := zip_with (λ x y, fmul (fsub x y) (fsub x y)) a b in
    Ok (d2f (accumulate diff d_zero)).

(** vec_t error(vec_t a, vec_t b): after the size test the function fills
    a local vector and flows off its end without a [return], which is
    undefined behaviour for a function that returns a value. *)
Definition error (a b : vec_t) : outcome vec_t :=
  if decide (length a ≠ length b) then Thrown "different sizes"
  else Undefined.

(** float sum(vec_t a) *)
Definition sum (a : vec_t) : float_t := d2f (accumulate a d_zero).

(** vec_t df(const vec_t& y, size_t i)
    { vec_t v(y.size(), 0); v[i] = df(y[i]); return v; } *)
Definition df_at (y : vec_t) (i : nat) : outcome vec_t :=
  yi ← vget y i;
  vset (replicate (length y) f_zero) i (df yi).

(** void print_weights(): what is printed is kept as the list of the
    argument triples of the calls of [printf], in order; the text that
    the conversion specifications make of them is not modelled.
      for (i < in_size) for (j < out_size)
        printf("%f - %d %d", weights[i][j], i, j); *)
Definition print_weights_body (ws : list vec_t) (i j : nat)
    (out : list (float_t * nat * nat)) : outcome (list (float_t * nat * nat)) :=
  w ← vget ws i;
  x ← vget w j;
  Ok (out ++ [(x, i, j)]).

Definition print_weights (this : ptr) (h : heap)
    (out : list (float_t * nat * nat)) : outcome (list (float_t * nat * nat)) :=
  l ← load h this;
  match Layer.next l with
  | None => Ok out
  | Some _ =>
      for_loop (Layer.in_size l)
        (λ i, for_loop (Layer.out_size l)
                (print_weights_body (Layer.weights l) i))
        out
  end.

(** The body of the training loop of [main]:
      input->values = training[i];
      cnn.forward_propogate();
      cnn.back_propogate(labels[i]); *)
Definition train_step (fuel : nat) (input : ptr) (c : CNN.t)
    (x y : vec_t) (h : heap) : outcome heap :=
  l ← load h input;
  let h1 := <[input := Layer.set_values l x]> h in
  h2 ← CNN.forward_propogate fuel c h1;
  CNN.back_propogate fuel c y h2.

(** The training loop, over the pairs (training[i], labels[i]). *)
Fixpoint train (fuel : nat) (input : ptr) (c : CNN.t)
    (examples : list (vec_t * vec_t)) (h : heap) : outcome heap :=
  match examples with
  | [] => Ok h
  | (x, y) :: examples' =>
      h' ← train_step fuel input c x y h;
      train fuel input c examples' h'
  end.

(** bool res = ~(a | b) & 0b1, on [int]: bitwise operations on two's
    complement, then the conversion to [bool]. *)
Definition nor_label (a b : Z) : bool :=
  negb (Z.land (Z.lnot (Z.lor a b)) 1 =? 0)%Z.

(** ** Relations between heaps *)

(** [h'] has the layers of [h], each related by [R] to what it was. *)
Definition heap_rel (R : Layer.t → Layer.t → Prop) (h h' : heap) : Prop :=
  ∀ p, match h !! p, h' !! p with
       | Some l, Some l' => R l l'
       | None, None => True
       | _, _ => False
       end.

(** Only the activations differ, and there are as many as before. *)
Definition only_values (l l' : Layer.t) : Prop :=
  ∃ vs, l' = Layer.set_values l vs ∧ length vs = length (Layer.values l).

(** Only the weights differ, and the matrix has the shape it had. *)
Definition only_weights (l l' : Layer.t) : Prop :=
  ∃ ws, l' = Layer.set_weights l ws ∧
        Forall2 (λ w w' : vec_t, length w' = length w) (Layer.weights l) ws.

(** Only the two links differ. *)
Definition only_links (l l' : Layer.t) : Prop :=
  ∃ p n, l' = Layer.set_next (Layer.set_prev l p) n.

(** Only the weights differ, whatever their shape. *)
Definition only_weights_any (l l' : Layer.t) : Prop :=
  ∃ ws, l' = Layer.set_weights l ws.

(** The sizes, the links and the lengths of the three containers are
    the same, row by row for the weights. *)
Definition same_shape (l l' : Layer.t) : Prop :=
  Layer.prev l' = Layer.prev l ∧ Layer.next l' = Layer.next l ∧
  Layer.in_size l' = Layer.in_size l ∧ Layer.out_size l' = Layer.out_size l ∧
  length (Layer.values l') = length (Layer.values l) ∧
  length (Layer.biases l') = length (Layer.biases l) ∧
  Forall2 (λ w w' : vec_t, length w' = length w)
    (Layer.weights l) (Layer.weights l').

(** The biases and the neuron count are the same. *)
Definition keeps_biases (l l' : Layer.t) : Prop :=
  Layer.biases l' = Layer.biases l ∧ Layer.in_size l' = Layer.in_size l.

(** Every bias of every layer is the zero its constructor wrote. *)
Definition zero_biases (h : heap) : Prop :=
  ∀ p l, h !! p = Some l →
    Layer.biases l = replicate (Layer.in_size l) f_zero.

(** ** Chains that end *)

(** Following [next] from [p] meets a layer without successor after at
    most [n] layers; likewise backwards along [prev]. *)
Fixpoint ends_within (n : nat) (h : heap) (p : ptr) : Prop :=
  match n with
  | 0 => False
  | S n' =>
      ∃ l, h !! p = Some l ∧
        match Layer.next l with
        | None => True
        | Some q => ends_within n' h q
        end
  end.

Fixpoint begins_within (n : nat) (h : heap) (p : ptr) : Prop :=
  match n with
  | 0 => False
  | S n' =>
      ∃ l, h !! p = Some l ∧
        match Layer.prev l with
        | None => True
        | Some q => begins_within n' h q
        end
  end.

(** The layers [ps] are alive in [h], each has the next one as its
    successor, and the last one has none. *)
Definition path (ps : list ptr) (h : heap) : Prop :=
  ∀ i p, ps !! i = Some p →
    ∃ l, h !! p = Some l ∧ Layer.next l = ps !! S i.

(** Every layer has as many biases as neurons, as its constructor
    leaves it. *)
Definition biases_sized (h : heap) : Prop :=
  ∀ p l, h !! p = Some l → length (Layer.biases l) = Layer.in_size l.

(** The predecessor of a layer has that layer as its successor. *)
Definition back_linked (h : heap) : Prop :=
  ∀ p l q, h !! p = Some l → Layer.prev l = Some q →
    ∃ pl, h !! q = Some pl ∧ Layer.next pl = Some p.

(** A network ready for training: shapes, links, and a chain that ends
    within [n] layers in both directions. *)
Definition trainable (n : nat) (c : CNN.t) (h : heap) : Prop :=
  shape_invariant h ∧ biases_sized h ∧ back_linked h ∧
  ∃ hd tl, CNN.head c = Some hd ∧ CNN.tail c = Some tl ∧
           ends_within n h hd ∧ begins_within n h tl.

(** A layer with a successor has weights of [out_size] rows of
    [in_size] columns. *)
Definition shaped (l : Layer.t) : Prop :=
  is_Some (Layer.next l) →
  length (Layer.weights l) = Layer.out_size l ∧
  Forall (λ w : vec_t, length w = Layer.in_size l) (Layer.weights l).

(** Only the weights differ, and a layer that was shaped still is. *)
Definition reinitialised (l l' : Layer.t) : Prop :=
  only_weights_any l l' ∧ (shaped l → shaped l').

(** The layer [l], the [i]-th of the layers [ps] added one after the
    other, with the links the calls of [add] give it: the layer before
    it and the layer after it, where there is one. *)
Definition chained (ps : list ptr) (i : nat) (l : Layer.t) : Layer.t :=
  Layer.set_next
    (Layer.set_prev l (match i with
                       | 0 => Layer.prev l
                       | S k => ps !! k
                       end))
    (match ps !! S i with
     | Some q => Some q
     | None => Layer.next l
     end).

Context `{!RandomOps}.

(** [n] draws in a row from the generator [g], and the generator left. *)
Fixpoint draw_row (n : nat) (g : mt19937) : vec_t * mt19937 :=
  match n with
  | 0 => ([], g)
  | S n' =>
      let '(r, g') := dis g in
      let '(rs, g'') := draw_row n' g' in
      (r :: rs, g'')
  end.

(** [m] rows of [n] draws each. *)
Fixpoint draw_rows (m n : nat) (g : mt19937) : list vec_t * mt19937 :=
  match m with
  | 0 => ([], g)
  | S m' =>
      let '(row, g') := draw_row n g in
      let '(rows, g'') := draw_rows m' n g' in
      (row :: rows, g'')
  end.
End more_functions.

(** ** One more layer over the reals, for running the definitions *)

Module Wide.
(** A layer of two neurons with three successors' worth of weights: three
    rows of two columns, as [init_weights] shapes them. *)
Definition layer : @Layer.t real_ops :=
  @Layer.mk real_ops None (Some 2%positive) [1; 1]%R [0; 0]%R
    [[1; 2]; [3; 4]; [5; 6]]%R 2 3 0 0.

Definition heap_ : gmap positive (@Layer.t real_ops) :=
  <[1%positive := layer]> ∅.

(** Two training examples for the network of [Sample]: inputs of two
    values, labels of two values. *)
Definition examples : list (list R * list R) :=
  [([0; 0]%R, [1; 1]%R); ([1; 0]%R, [0; 0]%R)].
End Wide.

(** ** The two conditions on adjacent layers alone *)

Section listed.
Context `{FloatOps}.

(** The two conditions on a pair of adjacent layers, without the
    condition that a layer holds [in_size] activations: for every layer
    with a successor, the weight matrix has [out_size] rows of [in_size]
    columns and the successor holds [out_size] activations. *)
Definition listed_invariant (h : heap) : Prop :=
  ∀ p l, h !! p = Some l →
    ∀ q, Layer.next l = Some q → ∃ nl, h !! q = Some nl ∧ linked l nl.
End listed.

Module Misshapen.
(** A head layer of two neurons that was given three input values, as
    the assignment [input->values = ...] allows. *)
Definition long_input : gmap positive (@Layer.t real_ops) :=
  <[1%positive := @Layer.mk real_ops None (Some 2%positive)
                    [1; 1; 1]%R [0; 0]%R [[0; 0]]%R 2 1 0 0]>
    (<[2%positive := @Layer.mk real_ops (Some 1%positive) None
                       [0]%R [0]%R [] 1 1 0 0]> ∅).

(** Three layers, the middle one with an [in_size] of three after a
    layer with an [out_size] of two. *)
Definition middle : gmap positive (@Layer.t real_ops) :=
  <[1%positive := @Layer.mk real_ops None (Some 2%positive)
                    [1]%R [0]%R [[0]; [0]]%R 1 2 0 0]>
    (<[2%positive := @Layer.mk real_ops (Some 1%positive) (Some 3%positive)
                       [0; 0]%R [0; 0; 0]%R [[0; 0; 0]]%R 3 1 0 0]>
       (<[3%positive := @Layer.mk real_ops (Some 2%positive) None
                          [0]%R [0]%R [] 1 1 0 0]> ∅)).
End Misshapen.

(** ** Loops and outcomes *)

Section loops.
Context {S : Type}.
Implicit Types (body : nat → S → outcome S) (s : S).

Lemma for_each_app idx1 idx2 body s :
  for_each (idx1 ++ idx2) body s
  = s' ← for_each idx1 body s; for_each idx2 body s'.
Proof.
  revert s. induction idx1 as [|i idx1 IH]; intros s; simpl; [done|].
  destruct (body i s) as [s'| | |]; simpl; auto.
Qed.

Lemma for_loop_S n body s :
  for_loop (Datatypes.S n) body s = s' ← for_loop n body s; body n s'.
Proof.
  unfold for_loop. rewrite seq_S, for_each_app. simpl.
  destruct (for_each (seq 0 n) body s) as [s'| | |]; simpl; [|done..].
  by destruct (body n s').
Qed.

(** An invariant indexed by the number of iterations done, for loops
    whose iterations all return. *)
Lemma for_loop_inv (P : nat → S → Prop) n body s :
  P 0 s →
  (∀ i s, i < n → P i s → ∃ s', body i s = Ok s' ∧ P (Datatypes.S i) s') →
  ∃ s', for_loop n body s = Ok s' ∧ P n s'.
Proof.
  intros H0 Hstep. induction n as [|n IH]; [by exists s|].
  destruct IH as (s1 & Hs1 & HP); [intros; apply Hstep; auto with lia|].
  rewrite for_loop_S, Hs1. simpl. apply Hstep; auto.
Qed.

Lemma for_loop_keeps (P : S → Prop) n body s :
  P s → (∀ i s, P s → keeps P (body i s)) → keeps P (for_loop n body s).
Proof.
  intros H0 Hstep. induction n as [|n IH]; [done|].
  rewrite for_loop_S. destruct (for_loop n body s) as [s1| | |]; simpl in *;
    auto.
Qed.

Lemma for_loop_returns_with (P : S → Prop) n body s :
  P s → (∀ i s, P s → returns_with P (body i s)) →
  returns_with P (for_loop n body s).
Proof.
  intros H0 Hstep. induction n as [|n IH]; [done|].
  rewrite for_loop_S. destruct (for_loop n body s) as [s1| | |]; simpl in *;
    auto.
Qed.
End loops.

Lemma keeps_bind {A B} (P : A → Prop) (Q : B → Prop) (m : outcome A)
    (f : A → outcome B) :
  keeps P m → (∀ a, P a → keeps Q (f a)) → keeps Q (m ≫= f).
Proof. destruct m; simpl; auto. Qed.

Lemma keeps_not_thrown {A} (P : A → Prop) (o : outcome A) what :
  keeps P o → o ≠ Thrown what.
Proof. by destruct o. Qed.

Lemma keeps_vget {A} (v : list A) i : keeps (λ x, v !! i = Some x) (vget v i).
Proof. unfold vget. by destruct (v !! i). Qed.

Lemma keeps_vset {A} (v : list A) i x :
  keeps (λ v', v' = <[i := x]> v ∧ i < length v) (vset v i x).
Proof. unfold vset. by case_decide. Qed.

Lemma vget_Ok {A} (v : list A) i x : v !! i = Some x → vget v i = Ok x.
Proof. unfold vget. by intros ->. Qed.

Lemma vset_Ok {A} (v : list A) i x :
  i < length v → vset v i x = Ok (<[i := x]> v).
Proof. unfold vset. intros. by rewrite decide_True. Qed.

Section toolkit.
Context `{FloatOps}.

Lemma load_Ok (h : heap) p l : h !! p = Some l → load h p = Ok l.
Proof. unfold load. by intros ->. Qed.

Lemma keeps_load (h : heap) p : keeps (λ l, h !! p = Some l) (load h p).
Proof. unfold load. by destruct (h !! p). Qed.

Lemma dot_Ok (a b : vec_t) :
  length a = length b → dot a b = Ok (dot_value a b).
Proof. unfold dot. intros. by rewrite decide_False by (intros ?; done). Qed.

Lemma dot_Thrown (a b : vec_t) what :
  dot a b = Thrown what ↔ length a ≠ length b ∧ what = "different sizes".
Proof.
  unfold dot. destruct (decide (length a ≠ length b)) as [Hne|Heq].
  - split; [intros [= <-]; done | intros [_ ->]; done].
  - split; [done | intros [? _]; done].
Qed.
End toolkit.

(** ** The forward pass *)

Section forward.
Context `{FloatOps}.
Implicit Types (h : heap) (l nl : Layer.t).

Lemma set_values_id l : Layer.set_values l (Layer.values l) = l.
Proof. by destruct l. Qed.

Lemma forward_propogate_unfold fuel this h :
  forward_propogate (S fuel) this h =
    l ← load h this;
    match Layer.next l with
    | None => Ok h
    | Some nxt =>
        h' ← forward_loop this nxt (Layer.out_size l) h;
        forward_propogate fuel nxt h'
    end.
Proof. done. Qed.

(** One iteration, when the successor is another layer than [this]. *)
Lemma forward_body_step h this nxt l nl k vs :
  this ≠ nxt →
  h !! this = Some l → h !! nxt = Some nl →
  k < Layer.out_size l →
  length (Layer.values l) = Layer.in_size l →
  linked l nl →
  Layer.out_size l ≤ length (Layer.biases nl) →
  forwarded l nl k vs →
  ∃ vs', forward_body this nxt k (<[nxt := Layer.set_values nl vs]> h)
         = Ok (<[nxt := Layer.set_values nl vs']> h)
         ∧ forwarded l nl (S k) vs'.
Proof.
  intros Hne Hl Hnl Hk Hvl (Hrows & Hcols & Hnv) Hb (Hlen & Hdone & Hrest).
  destruct (lookup_lt_is_Some_2 (Layer.weights l) k) as [w Hw]; [lia|].
  destruct (lookup_lt_is_Some_2 (Layer.biases nl) k) as [b Hb']; [lia|].
  assert (length w = length (Layer.values l)) as Hwl.
  { rewrite Hvl. eapply (Forall_lookup_1 _ _ _ _ Hcols Hw). }
  set (x := sigmoid (fadd (dot_value w (Layer.values l)) b)).
  exists (<[k := x]> vs). split.
  - unfold forward_body.
    assert (<[nxt := Layer.set_values nl vs]> h !! this = Some l) as Hl'.
    { rewrite lookup_insert_ne; [done | congruence]. }
    rewrite (load_Ok _ _ l Hl'). simpl.
    rewrite (vget_Ok _ _ _ Hw). simpl.
    rewrite dot_Ok by done. simpl.
    rewrite (load_Ok _ _ (Layer.set_values nl vs))
      by (by rewrite lookup_insert_eq).
    simpl. rewrite (vget_Ok _ _ _ Hb'). simpl.
    rewrite vset_Ok by lia. simpl.
    by rewrite insert_insert_eq.
  - split; [by rewrite length_insert|]. split.
    + intros i Hi. destruct (decide (i = k)) as [->|Hik].
      * exists w, b. split_and!; [done..|].
        apply list_lookup_insert_eq. lia.
      * destruct (Hdone i) as (w' & b' & ? & ? & ?); [lia|].
        exists w', b'. split_and!; [done..|].
        by rewrite list_lookup_insert_ne.
    + intros i Hi. rewrite list_lookup_insert_ne by lia. apply Hrest. lia.
Qed.

(** The whole loop, and the call that follows it. *)
Lemma forward_propogate_step fuel h this nxt l nl :
  this ≠ nxt →
  h !! this = Some l → Layer.next l = Some nxt → h !! nxt = Some nl →
  length (Layer.values l) = Layer.in_size l →
  linked l nl →
  Layer.out_size l ≤ length (Layer.biases nl) →
  ∃ vs, forwarded l nl (Layer.out_size l) vs ∧
    forward_loop this nxt (Layer.out_size l) h
    = Ok (<[nxt := Layer.set_values nl vs]> h) ∧
    forward_propogate (S fuel) this h
    = forward_propogate fuel nxt (<[nxt := Layer.set_values nl vs]> h).
Proof.
  intros Hne Hl Hnext Hnl Hvl Hlink Hb.
  destruct (for_loop_inv
    (λ k h', ∃ vs, h' = <[nxt := Layer.set_values nl vs]> h
                   ∧ forwarded l nl k vs)
    (Layer.out_size l) (forward_body this nxt) h) as (h' & Hloop & vs & -> & Hvs).
  - exists (Layer.values nl). split.
    + by rewrite set_values_id, insert_id.
    + split; [done|]. split; [intros; lia | done].
  - intros k h1 Hk (vs & -> & Hvs).
    destruct (forward_body_step h this nxt l nl k vs) as (vs' & Hstep & Hvs');
      try done.
    eauto.
  - exists vs. split; [done|]. split; [done|].
    rewrite forward_propogate_unfold, (load_Ok _ _ _ Hl). simpl.
    unfold forward_loop. by rewrite Hnext, Hloop.
Qed.

Lemma forward_propogate_tail fuel h this l :
  h !! this = Some l → Layer.next l = None →
  forward_propogate (S fuel) this h = Ok h.
Proof.
  intros Hl Hnext. rewrite forward_propogate_unfold, (load_Ok _ _ _ Hl).
  simpl. by rewrite Hnext.
Qed.
End forward.

(** ** The backward pass *)

Lemma insert_take_drop {A} (new old : list A) k x :
  new !! k = Some x → k < length old →
  <[k := x]> (take k new ++ drop k old) = take (S k) new ++ drop (S k) old.
Proof.
  intros Hnew Hold.
  assert (k < length new) as Hk by (by eapply lookup_lt_Some).
  destruct (lookup_lt_is_Some_2 old k Hold) as [y Hy].
  rewrite insert_app_r_alt; rewrite length_take_le by lia; [|lia].
  rewrite Nat.sub_diag, (drop_S _ _ _ Hy). simpl.
  rewrite (take_S_r _ _ _ Hnew), <- app_assoc. done.
Qed.

Lemma lookup_take_drop {A} (new old : list A) k :
  k ≤ length new → (take k new ++ drop k old) !! k = old !! k.
Proof.
  intros Hk. rewrite lookup_app_r; rewrite length_take_le by lia; [|lia].
  rewrite Nat.sub_diag, lookup_drop. f_equal. lia.
Qed.

Lemma take_drop_all {A} (new old : list A) :
  length new = length old →
  take (length old) new ++ drop (length old) old = new.
Proof.
  intros Hlen. rewrite take_ge by lia. rewrite drop_ge by lia.
  apply app_nil_r.
Qed.

Section backward.
Context `{FloatOps}.
Implicit Types (h : heap) (l pl : Layer.t) (delta vs w pd : vec_t).
Implicit Types (ws : list vec_t).

Lemma set_weights_id l : Layer.set_weights l (Layer.weights l) = l.
Proof. by destruct l. Qed.

Lemma length_updated_row d vs w :
  length w = length vs → length (updated_row d vs w) = length vs.
Proof. intros. unfold updated_row. rewrite length_zip_with. lia. Qed.

Lemma length_row_delta d vs w :
  length w = length vs → length (row_delta d vs w) = length vs.
Proof. intros. unfold row_delta. rewrite length_zip_with. lia. Qed.

Lemma back_propogate_unfold fuel this delta h :
  back_propogate (S fuel) this delta h =
    l ← load h this;
    match Layer.prev l with
    | None => Ok h
    | Some prv =>
        s ← back_loops prv delta (Layer.in_size l) h;
        back_propogate fuel prv s.2 s.1
    end.
Proof. done. Qed.

(** One step of the inner loop: the weight is written first, and the
    entry of [prev_delta] is computed from the weight just written. *)
Lemma back_inner_body_step h prv pl delta pd i j w wij di vj :
  h !! prv = Some pl →
  Layer.weights pl !! i = Some w → w !! j = Some wij →
  delta !! i = Some di → Layer.values pl !! j = Some vj →
  j < length pd →
  let wij' := fadd wij (fmul (fmul f_tenth di) vj) in
  back_inner_body prv delta i j (h, pd)
  = Ok (<[prv := Layer.set_weights pl
                   (<[i := <[j := wij']> w]> (Layer.weights pl))]> h,
        <[j := fmul (fmul (fmul vj (fsub f_one vj)) wij') di]> pd).
Proof.
  intros Hpl Hw Hwij Hdi Hvj Hj wij'. unfold back_inner_body.
  rewrite (load_Ok _ _ _ Hpl). simpl.
  rewrite (vget_Ok _ _ _ Hw). simpl.
  rewrite (vget_Ok _ _ _ Hwij). simpl.
  rewrite (vget_Ok _ _ _ Hdi). simpl.
  rewrite (vget_Ok _ _ _ Hvj). simpl.
  rewrite (vset_Ok w j) by (eapply lookup_lt_Some, Hwij). simpl.
  rewrite (vset_Ok (Layer.weights pl) i) by (eapply lookup_lt_Some, Hw).
  simpl. rewrite (vset_Ok pd j) by done. done.
Qed.

(** The inner loop over a whole row. *)
Lemma back_inner_loop h prv pl delta ws i w d pd :
  h !! prv = Some pl →
  ws !! i = Some w → delta !! i = Some d →
  length w = length (Layer.values pl) →
  length pd = length (Layer.values pl) →
  for_loop (length w) (back_inner_body prv delta i)
    (<[prv := Layer.set_weights pl ws]> h, pd)
  = Ok (<[prv := Layer.set_weights pl
                   (<[i := updated_row d (Layer.values pl) w]> ws)]> h,
        row_delta d (Layer.values pl) (updated_row d (Layer.values pl) w)).
Proof.
  intros Hpl Hw Hd Hlw Hlpd. set (vs := Layer.values pl) in *.
  set (new := updated_row d vs w).
  set (npd := row_delta d vs new).
  assert (length new = length vs) as Hlnew by (by apply length_updated_row).
  assert (length npd = length vs) as Hlnpd.
  { apply length_row_delta. by rewrite Hlnew. }
  destruct (for_loop_inv
    (λ k (s : heap * vec_t),
       s = (<[prv := Layer.set_weights pl
                       (<[i := take k new ++ drop k w]> ws)]> h,
            take k npd ++ drop k pd))
    (length w) (back_inner_body prv delta i)
    (<[prv := Layer.set_weights pl ws]> h, pd)) as (s' & Hloop & ->).
  - simpl. rewrite !drop_0. by rewrite (list_insert_id _ _ _ Hw).
  - intros k s Hk ->.
    destruct (lookup_lt_is_Some_2 w k Hk) as [wk Hwk].
    destruct (lookup_lt_is_Some_2 vs k) as [vk Hvk]; [lia|].
    set (wk' := fadd wk (fmul (fmul f_tenth d) vk)).
    assert (new !! k = Some wk') as Hnewk.
    { unfold new, updated_row. rewrite lookup_zip_with, Hwk. simpl.
      by rewrite Hvk. }
    assert (npd !! k = Some (fmul (fmul (fmul vk (fsub f_one vk)) wk') d))
      as Hnpdk.
    { unfold npd, row_delta. rewrite lookup_zip_with. fold vs.
      rewrite Hvk. simpl. by rewrite Hnewk. }
    eexists. split; [|reflexivity].
    erewrite back_inner_body_step; cycle 1.
    + apply lookup_insert_eq.
    + simpl. apply list_lookup_insert_eq. eapply lookup_lt_Some, Hw.
    + rewrite lookup_take_drop by lia. exact Hwk.
    + exact Hd.
    + exact Hvk.
    + rewrite length_app, length_take_le, length_drop by lia. lia.
    + simpl. fold wk'. rewrite insert_insert_eq, list_insert_insert_eq.
      rewrite (insert_take_drop _ _ _ _ Hnewk) by lia.
      rewrite (insert_take_drop _ _ _ _ Hnpdk) by lia. done.
  - rewrite Hloop. f_equal. f_equal.
    + do 3 f_equal. apply take_drop_all. lia.
    + replace (length w) with (length pd) by lia. apply take_drop_all. lia.
Qed.

Lemma length_final_delta n delta vs ws :
  n ≤ length delta → n ≤ length ws →
  Forall (λ w, length w = length vs) ws →
  length (final_delta n (length vs) delta vs ws) = length vs.
Proof.
  intros Hd Hws Hrows. destruct n as [|m]; simpl.
  - unfold resize. rewrite take_nil. simpl. rewrite length_replicate. lia.
  - destruct (lookup_lt_is_Some_2 delta m) as [d ->]; [lia|].
    destruct (lookup_lt_is_Some_2 ws m) as [w Hw]; [lia|]. rewrite Hw.
    pose proof (Forall_lookup_1 _ _ _ _ Hrows Hw) as Hlw. simpl in Hlw.
    apply length_row_delta. by apply length_updated_row.
Qed.

(** The outer loop over the rows [0..n-1]. *)
Lemma back_outer_loop h prv pl delta n :
  h !! prv = Some pl →
  n ≤ length delta → n ≤ length (Layer.weights pl) →
  Forall (λ w, length w = length (Layer.values pl)) (Layer.weights pl) →
  for_loop n (back_outer_body prv delta)
    (h, resize (length (Layer.values pl)) f_zero [])
  = Ok (<[prv := Layer.set_weights pl
                   (updated_weights n delta (Layer.values pl)
                      (Layer.weights pl))]> h,
        final_delta n (length (Layer.values pl)) delta (Layer.values pl)
          (Layer.weights pl)).
Proof.
  intros Hpl Hd Hws Hrows.
  set (vs := Layer.values pl) in *. set (ws := Layer.weights pl) in *.
  set (new := zip_with (λ d w, updated_row d vs w) delta ws).
  destruct (for_loop_inv
    (λ k (s : heap * vec_t),
       k ≤ n →
       s = (<[prv := Layer.set_weights pl (updated_weights k delta vs ws)]> h,
            final_delta k (length vs) delta vs ws))
    n (back_outer_body prv delta)
    (h, resize (length vs) f_zero [])) as (s' & Hloop & Hs').
  - intros _. unfold updated_weights. simpl. rewrite drop_0.
    by rewrite set_weights_id, insert_id.
  - intros k s Hk Hs. specialize (Hs ltac:(lia)). subst s.
    destruct (lookup_lt_is_Some_2 delta k) as [d Hdk]; [lia|].
    destruct (lookup_lt_is_Some_2 ws k) as [w Hw]; [lia|].
    pose proof (Forall_lookup_1 _ _ _ _ Hrows Hw) as Hlw. simpl in Hlw.
    assert (new !! k = Some (updated_row d vs w)) as Hnewk.
    { unfold new. rewrite lookup_zip_with, Hdk. simpl. by rewrite Hw. }
    assert (k ≤ length new) as Hknew.
    { apply lookup_lt_Some in Hnewk. lia. }
    assert (updated_weights k delta vs ws !! k = Some w) as Hcur.
    { unfold updated_weights. fold new. by rewrite lookup_take_drop. }
    eexists. split; [|intros _; reflexivity].
    unfold back_outer_body. simpl.
    rewrite (load_Ok _ _ (Layer.set_weights pl (updated_weights k delta vs ws)))
      by apply lookup_insert_eq.
    simpl. rewrite (vget_Ok _ _ _ Hcur). simpl.
    assert (length (final_delta k (length vs) delta vs ws) = length vs)
      as Hlpd by (apply length_final_delta; [lia | lia | done]).
    rewrite (back_inner_loop h prv pl delta _ k w d) by done.
    fold vs. do 2 f_equal.
    + do 2 f_equal. unfold updated_weights. fold new.
      apply insert_take_drop; [done|lia].
    + simpl. by rewrite Hdk, Hw.
  - rewrite Hloop. f_equal. by apply Hs'.
Qed.

Lemma back_loops_result h prv pl delta n :
  h !! prv = Some pl →
  length (Layer.values pl) = Layer.in_size pl →
  n ≤ length delta → n ≤ length (Layer.weights pl) →
  Forall (λ w, length w = Layer.in_size pl) (Layer.weights pl) →
  back_loops prv delta n h
  = Ok (<[prv := Layer.set_weights pl
                   (updated_weights n delta (Layer.values pl)
                      (Layer.weights pl))]> h,
        final_delta n (Layer.in_size pl) delta (Layer.values pl)
          (Layer.weights pl)).
Proof.
  intros Hpl Hvs Hd Hws Hrows. unfold back_loops.
  rewrite (load_Ok _ _ _ Hpl). simpl. rewrite <- Hvs in *.
  by apply back_outer_loop.
Qed.

(** The loops of [back_propogate] and the call that follows them. *)
Lemma back_propogate_step fuel h this prv l delta s :
  h !! this = Some l → Layer.prev l = Some prv →
  back_loops prv delta (Layer.in_size l) h = Ok s →
  back_propogate (S fuel) this delta h = back_propogate fuel prv s.2 s.1.
Proof.
  intros Hl Hprev Hloops.
  rewrite back_propogate_unfold, (load_Ok _ _ _ Hl). simpl.
  by rewrite Hprev, Hloops.
Qed.

Lemma back_propogate_head fuel h this l delta :
  h !! this = Some l → Layer.prev l = None →
  back_propogate (S fuel) this delta h = Ok h.
Proof.
  intros Hl Hprev. rewrite back_propogate_unfold, (load_Ok _ _ _ Hl).
  simpl. by rewrite Hprev.
Qed.
End backward.

(** ** What the passes leave alone *)

(** Case analysis on the outcome bound first in the goal. *)
Ltac case_outcome :=
  match goal with
  | |- context [@mbind outcome _ _ _ _ ?m] =>
      let E := fresh "E" in destruct m eqn:E; simpl; try done
  end.

Section frames.
Context `{FloatOps}.
Implicit Types (h : heap) (l pl : Layer.t) (delta vs w pd : vec_t).

Lemma load_inv h p l : load h p = Ok l → h !! p = Some l.
Proof. unfold load. destruct (h !! p); naive_solver. Qed.

Lemma same_biases_refl h : same_biases h h.
Proof. intros p l Hl. eauto. Qed.

Lemma same_biases_trans h1 h2 h3 :
  same_biases h1 h2 → same_biases h2 h3 → same_biases h1 h3.
Proof.
  intros H12 H23 p l Hl.
  destruct (H12 p l Hl) as (l2 & Hl2 & E2).
  destruct (H23 p l2 Hl2) as (l3 & Hl3 & E3).
  exists l3. split; [done | congruence].
Qed.

Lemma same_biases_insert h p l l' :
  h !! p = Some l → Layer.biases l' = Layer.biases l →
  same_biases h (<[p := l']> h).
Proof.
  intros Hl Hb q lq Hq. destruct (decide (p = q)) as [->|Hne].
  - exists l'. rewrite lookup_insert_eq. split; [done | congruence].
  - exists lq. by rewrite lookup_insert_ne.
Qed.

Lemma back_inner_body_biases h0 prv delta i j (s : heap * vec_t) :
  same_biases h0 s.1 →
  returns_with (λ s' : heap * vec_t, same_biases h0 s'.1)
    (back_inner_body prv delta i j s).
Proof.
  destruct s as [h pd]. intros Hs. unfold back_inner_body.
  repeat case_outcome. apply load_inv in E.
  eapply same_biases_trans; [done|]. by eapply same_biases_insert.
Qed.

Lemma back_outer_body_biases h0 prv delta i (s : heap * vec_t) :
  same_biases h0 s.1 →
  returns_with (λ s' : heap * vec_t, same_biases h0 s'.1)
    (back_outer_body prv delta i s).
Proof.
  intros Hs. unfold back_outer_body. repeat case_outcome.
  apply (for_loop_returns_with (λ s' : heap * vec_t, same_biases h0 s'.1));
    [done|].
  intros. by apply back_inner_body_biases.
Qed.

Lemma back_loops_biases h prv delta n :
  returns_with (λ s' : heap * vec_t, same_biases h s'.1)
    (back_loops prv delta n h).
Proof.
  unfold back_loops. case_outcome.
  apply (for_loop_returns_with (λ s' : heap * vec_t, same_biases h s'.1)).
  - apply same_biases_refl.
  - intros. by apply back_outer_body_biases.
Qed.

(** The backward pass writes weights only: no bias changes. *)
Lemma back_propogate_biases fuel this delta h :
  returns_with (same_biases h) (back_propogate fuel this delta h).
Proof.
  revert this delta h. induction fuel as [|fuel IH]; intros this delta h;
    [done|].
  rewrite back_propogate_unfold. case_outcome.
  destruct (Layer.prev a) as [prv|]; [|apply same_biases_refl].
  pose proof (back_loops_biases h prv delta (Layer.in_size a)) as Hloops.
  case_outcome. simpl in Hloops.
  pose proof (IH prv a0.2 a0.1) as Hrec.
  destruct (back_propogate fuel prv a0.2 a0.1); simpl in *; try done.
  by eapply same_biases_trans.
Qed.

(** Nothing on the backward path throws: [dot] is not called there. *)
Lemma back_inner_body_keeps prv delta i j (s : heap * vec_t) :
  keeps (λ _, True) (back_inner_body prv delta i j s).
Proof.
  destruct s as [h pd]. unfold back_inner_body.
  eapply keeps_bind; [apply keeps_load|]; intros pl _.
  do 4 (eapply keeps_bind; [apply keeps_vget|]; intros ? _).
  do 3 (eapply keeps_bind; [apply keeps_vset|]; intros ? _).
  done.
Qed.

Lemma back_outer_body_keeps prv delta i (s : heap * vec_t) :
  keeps (λ _, True) (back_outer_body prv delta i s).
Proof.
  unfold back_outer_body.
  eapply keeps_bind; [apply keeps_load|]; intros pl _.
  eapply keeps_bind; [apply keeps_vget|]; intros w _.
  apply for_loop_keeps; [done|]. intros. apply back_inner_body_keeps.
Qed.

Lemma back_propogate_keeps fuel this delta h :
  keeps (λ _, True) (back_propogate fuel this delta h).
Proof.
  revert this delta h. induction fuel as [|fuel IH]; intros this delta h;
    [done|].
  rewrite back_propogate_unfold.
  eapply keeps_bind; [apply keeps_load|]; intros l _.
  destruct (Layer.prev l) as [prv|]; [|done].
  eapply (keeps_bind (λ _, True)); [|intros; apply IH].
  unfold back_loops.
  eapply keeps_bind; [apply keeps_load|]; intros pl _.
  apply for_loop_keeps; [done|]. intros. apply back_outer_body_keeps.
Qed.
End frames.

Section init_frames.
Context `{FloatOps} `{!RandomOps}.

Lemma init_weights_biases this (s : heap * random_device) :
  returns_with (λ s' : heap * random_device, same_biases s.1 s'.1)
    (init_weights this s).
Proof.
  destruct s as [h rd]. unfold init_weights. case_outcome.
  apply load_inv in E.
  destruct (Layer.next a); [|apply same_biases_refl].
  destruct (seed_gen rd) as [gen rd']. case_outcome.
  by eapply same_biases_insert.
Qed.

(** [init] draws weights only: no bias is assigned. *)
Lemma init_layers_biases ls (s : heap * random_device) :
  returns_with (λ s' : heap * random_device, same_biases s.1 s'.1)
    (CNN.init_layers ls s).
Proof.
  revert s. induction ls as [|[p|] ls IH]; intros s; simpl; [| |done].
  - apply same_biases_refl.
  - pose proof (init_weights_biases p s) as Hp. case_outcome.
    simpl in Hp. pose proof (IH a) as Hrec.
    destruct (CNN.init_layers ls a); simpl in *; try done.
    by eapply same_biases_trans.
Qed.
End init_frames.

(** ** The shape invariant along the forward pass *)

Section forward_shapes.
Context `{FloatOps}.
Implicit Types (h : heap) (l nl : Layer.t).

Lemma shape_invariant_set_values h q nl vs :
  shape_invariant h → h !! q = Some nl →
  length vs = length (Layer.values nl) →
  shape_invariant (<[q := Layer.set_values nl vs]> h).
Proof.
  intros Hinv Hq Hlen p l Hp.
  assert (∀ l0 q', h !! q' = Some l0 →
    ∃ l1, <[q := Layer.set_values nl vs]> h !! q' = Some l1 ∧
          Layer.weights l1 = Layer.weights l0 ∧
          length (Layer.values l1) = length (Layer.values l0)) as Hsame.
  { intros l0 q' Hq'. destruct (decide (q = q')) as [->|Hne].
    - exists (Layer.set_values nl vs). rewrite lookup_insert_eq.
      assert (l0 = nl) as -> by congruence. done.
    - exists l0. by rewrite lookup_insert_ne. }
  assert (∃ l0, h !! p = Some l0 ∧ Layer.next l = Layer.next l0 ∧
    Layer.weights l = Layer.weights l0 ∧
    Layer.in_size l = Layer.in_size l0 ∧
    Layer.out_size l = Layer.out_size l0 ∧
    length (Layer.values l) = length (Layer.values l0))
    as (l0 & Hl0 & En & Ew & Ei & Eo & Ev).
  { destruct (decide (q = p)) as [->|Hne].
    - rewrite lookup_insert_eq in Hp. injection Hp as <-. by exists nl.
    - rewrite lookup_insert_ne in Hp by done. by exists l. }
  destruct (Hinv p l0 Hl0) as [Hv Hn]. split; [congruence|].
  intros q' Hq'. rewrite En in Hq'.
  destruct (Hn q' Hq') as (nl0 & Hnl0 & Hrows & Hcols & Hnv).
  destruct (Hsame nl0 q' Hnl0) as (nl1 & Hnl1 & _ & Ev1).
  exists nl1. split; [done|]. unfold linked.
  rewrite Ew, Ei, Eo, Ev1. done.
Qed.

Lemma forward_body_shape this nxt i h :
  shape_invariant h →
  (∃ l, h !! this = Some l ∧ Layer.next l = Some nxt) →
  keeps (λ h', shape_invariant h' ∧
               ∃ l, h' !! this = Some l ∧ Layer.next l = Some nxt)
    (forward_body this nxt i h).
Proof.
  intros Hinv (l & Hl & Hnext). unfold forward_body.
  rewrite (load_Ok _ _ _ Hl). simpl.
  destruct (Hinv this l Hl) as [Hv Hn].
  destruct (Hn nxt Hnext) as (nl & Hnl & Hrows & Hcols & Hnv).
  eapply keeps_bind; [apply keeps_vget|]; intros w Hw.
  rewrite dot_Ok; cycle 1.
  { rewrite Hv. apply (Forall_lookup_1 _ _ _ _ Hcols Hw). }
  simpl. rewrite (load_Ok _ _ _ Hnl). simpl.
  eapply keeps_bind; [apply keeps_vget|]; intros b _.
  eapply keeps_bind; [apply keeps_vset|]; intros vs Hvs.
  simpl in Hvs. destruct Hvs as [-> _]. simpl.
  split.
  - apply shape_invariant_set_values; [done..|]. apply length_insert.
  - destruct (decide (nxt = this)) as [->|Hne].
    + rewrite lookup_insert_eq. eexists. split; [done|].
      assert (l = nl) as -> by congruence. done.
    + rewrite lookup_insert_ne by done. eauto.
Qed.

(** Under the shape invariant no call of [dot] throws, and the
    invariant holds again when the pass returns. *)
Lemma forward_propogate_shape fuel this h :
  shape_invariant h → keeps shape_invariant (forward_propogate fuel this h).
Proof.
  revert this h. induction fuel as [|fuel IH]; intros this h Hinv; [done|].
  rewrite forward_propogate_unfold.
  eapply keeps_bind; [apply keeps_load|]; intros l Hl.
  destruct (Layer.next l) as [nxt|] eqn:Hnext; [|done].
  apply (keeps_bind (λ h', shape_invariant h' ∧
    ∃ l, h' !! this = Some l ∧ Layer.next l = Some nxt));
    [|intros h' Hh'; apply IH, Hh'].
  simpl in Hl. unfold forward_loop. apply for_loop_keeps; [by eauto|].
  intros i h1 [Hinv1 Hthis1]. by apply forward_body_shape.
Qed.
End forward_shapes.

(** ** The network *)

Lemma length_resize_nil {A} n (d : A) : length (resize n d []) = n.
Proof. unfold resize. rewrite take_nil. simpl. rewrite length_replicate. lia. Qed.

Section network.
Context `{FloatOps}.
Implicit Types (h : heap) (l : Layer.t) (labels : vec_t) (ps : list ptr).

(** The loop of [CNN::back_propogate] reads the first [in_size] labels. *)
Lemma initial_delta_result tl labels h l :
  h !! tl = Some l →
  length (Layer.values l) = Layer.in_size l →
  Layer.in_size l ≤ length labels →
  CNN.initial_delta tl labels h = Ok (output_delta (Layer.values l) labels).
Proof.
  intros Hl Hvs Hlabels. unfold CNN.initial_delta.
  rewrite (load_Ok _ _ _ Hl). simpl.
  set (full := output_delta (Layer.values l) labels).
  set (zeros := resize (Layer.in_size l) f_zero []).
  assert (length full = Layer.in_size l) as Hfull.
  { unfold full, output_delta. rewrite length_zip_with. lia. }
  assert (length zeros = Layer.in_size l) as Hzeros
    by apply length_resize_nil.
  destruct (for_loop_inv
    (λ k (d : vec_t), d = take k full ++ drop k zeros)
    (Layer.in_size l) (CNN.delta_body tl labels h) zeros)
    as (d & Hloop & ->).
  - by rewrite drop_0.
  - intros k d Hk ->.
    destruct (lookup_lt_is_Some_2 (Layer.values l) k) as [v Hv]; [lia|].
    destruct (lookup_lt_is_Some_2 labels k) as [y Hy]; [lia|].
    eexists. split; [|reflexivity]. unfold CNN.delta_body.
    rewrite (load_Ok _ _ _ Hl). simpl.
    rewrite (vget_Ok _ _ _ Hv). simpl. rewrite (vget_Ok _ _ _ Hy). simpl.
    rewrite vset_Ok
      by (rewrite length_app, length_take_le, length_drop; lia).
    f_equal. apply insert_take_drop; [|lia].
    unfold full, output_delta. rewrite lookup_zip_with, Hv. simpl.
    by rewrite Hy.
  - rewrite Hloop. f_equal. rewrite <- Hzeros at 1 2.
    apply take_drop_all. lia.
Qed.

Lemma output_delta_take vs labels :
  output_delta vs (take (length vs) labels) = output_delta vs labels.
Proof.
  unfold output_delta. revert labels.
  induction vs as [|v vs IH]; intros [|y labels]; simpl; try done.
  by rewrite IH.
Qed.

Lemma tail_fmap_Some ps : CNN.tail (CNN.mk (Some <$> ps)) = last ps.
Proof.
  unfold CNN.tail, CNN.empty. simpl. rewrite length_fmap.
  case_bool_decide as Hlen.
  - by destruct ps.
  - rewrite list_lookup_fmap, last_lookup.
    replace (length ps - 1) with (Init.Nat.pred (length ps)) by lia.
    by destruct (ps !! _).
Qed.

Lemma head_fmap_Some ps : CNN.head (CNN.mk (Some <$> ps)) = head ps.
Proof.
  unfold CNN.head, CNN.empty. simpl. rewrite length_fmap.
  case_bool_decide as Hlen.
  - by destruct ps.
  - rewrite list_lookup_fmap, head_lookup. by destruct (ps !! _).
Qed.

(** [add_tail] asks nothing of the links that are there already. *)
Lemma add_tail_result this q h l ql :
  h !! this = Some l →
  <[this := Layer.set_next l (Some q)]> h !! q = Some ql →
  add_tail this (Some q) h
  = Ok (<[q := Layer.set_prev ql (Some this)]>
          (<[this := Layer.set_next l (Some q)]> h)).
Proof.
  intros Hl Hq. unfold add_tail. rewrite (load_Ok _ _ _ Hl). simpl.
  by rewrite (load_Ok _ _ _ Hq).
Qed.

Lemma add_all_snoc ls x (s : CNN.t * heap) :
  CNN.add_all (ls ++ [x]) s = s' ← CNN.add_all ls s; CNN.add x s'.
Proof.
  revert s. induction ls as [|y ls IH]; intros s; simpl.
  - by destruct (CNN.add x s).
  - destruct (CNN.add y s) as [s1| | |]; simpl; auto.
Qed.

(** Appending one more layer [x] to a chain that is wired already. *)
Lemma add_wired ps x h ql :
  NoDup (ps ++ [x]) → wired ps h → h !! x = Some ql →
  ∃ h', CNN.add (Some x) (CNN.mk (Some <$> ps), h)
        = Ok (CNN.mk (Some <$> (ps ++ [x])), h') ∧
    (∀ p, is_Some (h !! p) → is_Some (h' !! p)) ∧
    wired (ps ++ [x]) h'.
Proof.
  intros Hnd Hw Hx. apply NoDup_app in Hnd as (Hnd & Hfresh & _).
  assert (x ∉ ps) as Hxps.
  { intros Hin. apply (Hfresh x Hin). by apply list_elem_of_singleton. }
  unfold CNN.add. rewrite tail_fmap_Some, fmap_app. simpl.
  destruct (last ps) as [t|] eqn:Hlast.
  - (* a tail [t] is there: it gets [x] as its successor *)
    rewrite last_lookup in Hlast.
    assert (0 < length ps) as Hn.
    { apply lookup_lt_Some in Hlast. lia. }
    destruct (Hw _ _ Hlast) as (lt & Hlt & Hnext_t & Hprev_t).
    assert (t ≠ x) as Htx.
    { intros ->. apply Hxps. by eapply list_elem_of_lookup_2. }
    rewrite (add_tail_result t x h lt ql Hlt)
      by (by rewrite lookup_insert_ne).
    simpl. eexists. split; [done|]. split.
    { intros p Hp. destruct (decide (x = p)) as [->|];
        [rewrite lookup_insert_eq; eauto|].
      rewrite lookup_insert_ne by done.
      destruct (decide (t = p)) as [->|];
        [rewrite lookup_insert_eq; eauto|].
      by rewrite lookup_insert_ne. }
    intros i p Hi. apply lookup_snoc_Some in Hi as [[Hi Hp]|[-> ->]].
    + assert (p ≠ x) as Hpx.
      { intros ->. apply Hxps. by eapply list_elem_of_lookup_2. }
      destruct (Hw _ _ Hp) as (lp & Hlp & Hnext & Hprev).
      destruct (decide (t = p)) as [->|Htp].
      * assert (i = Init.Nat.pred (length ps)) as -> by (by eapply NoDup_lookup).
        assert (lp = lt) as -> by congruence.
        exists (Layer.set_next lt (Some x)).
        rewrite lookup_insert_ne, lookup_insert_eq by done.
        split; [done|]. split.
        -- intros q Hq. apply lookup_snoc_Some in Hq as [[Hq _]|[_ ->]];
             [lia | done].
        -- intros k q Hk Hq. apply lookup_snoc_Some in Hq as [[_ Hq]|[Hq _]];
             [by eapply Hprev_t | lia].
      * exists lp. rewrite !lookup_insert_ne by done.
        split; [done|]. split.
        -- intros q Hq. apply lookup_snoc_Some in Hq as [[_ Hq]|[Hq _]];
             [by apply Hnext|].
           exfalso. apply Htp.
           assert (i = Init.Nat.pred (length ps)) as -> by (lia).
           congruence.
        -- intros k q -> Hq. apply lookup_snoc_Some in Hq as [[_ Hq]|[Hq _]];
             [by eapply Hprev | lia].
    + exists (Layer.set_prev ql (Some t)). rewrite lookup_insert_eq.
      split; [done|]. split.
      * intros q Hq. apply lookup_lt_Some in Hq.
        rewrite length_app in Hq. simpl in Hq. lia.
      * intros k q Hk Hq. simpl. f_equal.
        apply lookup_snoc_Some in Hq as [[_ Hq]|[Hq _]]; [|lia].
        assert (k = Init.Nat.pred (length ps)) as -> by (lia).
        congruence.
  - (* the network is empty: no link is written *)
    assert (ps = []) as ->.
    { destruct ps as [|p ps] using rev_ind; [done|].
      by rewrite last_snoc in Hlast. }
    simpl. exists h. split; [done|]. split; [done|].
    intros i p Hi. apply list_lookup_singleton_Some in Hi as [-> ->].
    exists ql. split; [done|]. split; [done|]. intros k q Hk. lia.
Qed.

(** Appending the layers [ps] one after the other to the empty network. *)
Lemma add_all_wired ps h :
  NoDup ps → (∀ p, p ∈ ps → is_Some (h !! p)) →
  ∃ h', CNN.add_all (Some <$> ps) (CNN.mk [], h)
        = Ok (CNN.mk (Some <$> ps), h') ∧
    (∀ p, is_Some (h !! p) → is_Some (h' !! p)) ∧
    wired ps h'.
Proof.
  induction ps as [|x ps IH] using rev_ind; intros Hnd Halloc.
  - exists h. split; [done|]. split; [done|]. intros i p Hi. done.
  - destruct IH as (h1 & Hadd & Hkeep & Hw).
    { by apply NoDup_app in Hnd as (? & _ & _). }
    { intros p Hp. apply Halloc, elem_of_app. by left. }
    destruct (Hkeep x) as [ql Hql].
    { apply Halloc, elem_of_app. right. by apply list_elem_of_singleton. }
    destruct (add_wired ps x h1 ql Hnd Hw Hql) as (h2 & Hadd2 & Hkeep2 & Hw2).
    exists h2. split; [|split; [|done]].
    + rewrite fmap_app. change (Some <$> [x]) with [Some x].
      rewrite add_all_snoc, Hadd. rewrite fmap_app in Hadd2.
      exact Hadd2.
    + intros p Hp. by apply Hkeep2, Hkeep.
Qed.

Lemma chain_length_S fuel h p t :
  chain_length (S fuel) h p t =
    if decide (p = t) then Some 1
    else l ← h !! p; q ← Layer.next l;
         n ← chain_length fuel h q t; Some (S n).
Proof. done. Qed.

(** Walking a wired chain from any of its layers to the last one. *)
Lemma chain_length_wired pre rest p t h :
  NoDup (pre ++ p :: rest) → wired (pre ++ p :: rest) h →
  last (p :: rest) = Some t →
  chain_length (S (length rest)) h p t = Some (S (length rest)).
Proof.
  revert pre p. induction rest as [|q rest IH]; intros pre p Hnd Hw Hlast.
  - simpl in *. injection Hlast as ->. by rewrite decide_True.
  - assert ((pre ++ p :: q :: rest) !! length pre = Some p) as Hp.
    { rewrite lookup_app_r by lia. by rewrite Nat.sub_diag. }
    assert ((pre ++ p :: q :: rest) !! S (length pre) = Some q) as Hq.
    { rewrite lookup_app_r by lia.
      by replace (S (length pre) - length pre) with 1 by lia. }
    destruct (Hw _ _ Hp) as (lp & Hlp & Hnext & _).
    assert (p ≠ t) as Hpt.
    { intros ->. change (last (q :: rest) = Some t) in Hlast.
      rewrite last_lookup in Hlast.
      assert ((pre ++ t :: q :: rest) !!
                (S (length pre) + Init.Nat.pred (length (q :: rest)))
              = Some t) as Ht.
      { rewrite lookup_app_r by lia.
        replace (S (length pre) + Init.Nat.pred (length (q :: rest))
                 - length pre)
          with (S (Init.Nat.pred (length (q :: rest)))) by lia.
        exact Hlast. }
      pose proof (NoDup_lookup _ _ _ _ Hnd Hp Ht). lia. }
    cbn [length]. rewrite chain_length_S, decide_False by done.
    rewrite Hlp. cbn [mbind option_bind]. rewrite (Hnext q Hq).
    cbn [mbind option_bind].
    rewrite (IH (pre ++ [p]) q); [done | | |done].
    + by rewrite <- app_assoc.
    + by rewrite <- app_assoc.
Qed.
End network.

(** ** Lookups in the results of the backward loops *)

Section lookups.
Context `{FloatOps}.
Implicit Types (delta vs w : vec_t) (ws : list vec_t).




End lookups.

(** * The properties of the specification *)

Section claims.
Context `{FloatOps}.
Implicit Types (h : heap) (l nl pl : Layer.t) (delta labels : vec_t).

(** C9: on a layer with no successor [forward_propogate] returns with
    the heap as it was, so no activation, weight or bias of any layer
    changes; on a layer with no predecessor [back_propogate] does, for
    every delta. *)
Theorem terminal_layers_are_noops :
  (∀ fuel h this l,
      h !! this = Some l → Layer.next l = None →
      forward_propogate (S fuel) this h = Ok h) ∧
  (∀ fuel h this l delta,
      h !! this = Some l → Layer.prev l = None →
      back_propogate (S fuel) this delta h = Ok h).
Proof.
  split.
  - intros. by eapply forward_propogate_tail.
  - intros. by eapply back_propogate_head.
Qed.



(** C5: for a layer [this] of two neurons or more with a predecessor,
    the [prev_delta] that [back_propogate] hands to the predecessor is
    what the iteration for the last neuron [m = in_size - 1] wrote: it
    is a function of [delta[m]], of row [m] of the weights and of the
    predecessor's activations only, every entry having been overwritten
    in each iteration of the outer loop; a [delta] that differs in the
    earlier entries leads to the same [prev_delta]. *)
Theorem prev_delta_is_the_last_rows fuel h this prv l pl delta :
  h !! this = Some l → Layer.prev l = Some prv → h !! prv = Some pl →
  length (Layer.values pl) = Layer.in_size pl →
  length (Layer.values l) = Layer.in_size l →
  linked pl l →
  length delta = Layer.in_size l →
  2 ≤ Layer.in_size l →
  ∃ m dm (w : vec_t) (pd : vec_t),
    Layer.in_size l = S m ∧
    delta !! m = Some dm ∧ Layer.weights pl !! m = Some w ∧
    pd = row_delta dm (Layer.values pl) (updated_row dm (Layer.values pl) w) ∧
    (∃ h', back_loops prv delta (Layer.in_size l) h = Ok (h', pd) ∧
           back_propogate (S fuel) this delta h
           = back_propogate fuel prv pd h') ∧
    (∀ delta', length delta' = Layer.in_size l → delta' !! m = Some dm →
       ∃ h', back_loops prv delta' (Layer.in_size l) h = Ok (h', pd)).
Proof.
  intros Hl Hprev Hpl Hvp Hvl (Hrows & Hcols & Hlv) Hd Hsize.
  destruct (Layer.in_size l) as [|m] eqn:Hm; [lia|].
  destruct (lookup_lt_is_Some_2 delta m) as [dm Hdm]; [lia|].
  destruct (lookup_lt_is_Some_2 (Layer.weights pl) m) as [w Hw]; [lia|].
  assert (∀ delta', length delta' = S m → delta' !! m = Some dm →
    back_loops prv delta' (S m) h
    = Ok (<[prv := Layer.set_weights pl
                     (updated_weights (S m) delta' (Layer.values pl)
                        (Layer.weights pl))]> h,
          row_delta dm (Layer.values pl)
            (updated_row dm (Layer.values pl) w))) as Hloops.
  { intros delta' Hlen' Hdm'.
    rewrite (back_loops_result h prv pl delta' (S m));
      [|done | done | lia | lia | done].
    simpl. by rewrite Hdm', Hw. }
  exists m, dm, w. eexists.
  split_and!; [done | done | done | reflexivity | |].
  - eexists. split; [by apply Hloops|].
    eapply (back_propogate_step fuel h this prv l delta (_, _));
      [done | done |].
    rewrite Hm. by apply Hloops.
  - intros delta' Hlen' Hdm'. eexists. by apply Hloops.
Qed.

(** C3: for a network whose tail layer [tl] holds as many activations
    as its [in_size] and labels of that length, [CNN::back_propogate]
    computes delta[i] = values[i] * (1 - values[i]) * (labels[i] -
    values[i]) for each output neuron [i] and calls
    [Layer::back_propogate] on the tail with exactly that vector. *)
Theorem cnn_back_propogate_seeds_tail fuel (c : CNN.t) h tl l labels :
  CNN.tail c = Some tl → h !! tl = Some l →
  length (Layer.values l) = Layer.in_size l →
  length labels = Layer.in_size l →
  ∃ delta,
    CNN.initial_delta tl labels h = Ok delta ∧
    length delta = Layer.in_size l ∧
    (∀ i, i < Layer.in_size l → ∃ v y,
        Layer.values l !! i = Some v ∧ labels !! i = Some y ∧
        delta !! i = Some (fmul (fmul v (fsub f_one v)) (fsub y v))) ∧
    CNN.back_propogate fuel c labels h = back_propogate fuel tl delta h.
Proof.
  intros Htl Hl Hvs Hlabels.
  exists (output_delta (Layer.values l) labels).
  assert (CNN.initial_delta tl labels h
          = Ok (output_delta (Layer.values l) labels)) as Hdelta
    by (apply initial_delta_result; [done | done | lia]).
  split_and!; [done | | |].
  - unfold output_delta. rewrite length_zip_with. lia.
  - intros i Hi.
    destruct (lookup_lt_is_Some_2 (Layer.values l) i) as [v Hv]; [lia|].
    destruct (lookup_lt_is_Some_2 labels i) as [y Hy]; [lia|].
    exists v, y. split_and!; [done | done |].
    unfold output_delta. rewrite lookup_zip_with, Hv. simpl. by rewrite Hy.
  - unfold CNN.back_propogate. by rewrite Htl, Hdelta.
Qed.

(** C4 (amended): [CNN::back_propogate] compares no lengths and never
    throws.  Labels beyond the tail's neuron count are not read: with
    at least [in_size] labels the initial delta is the one of the first
    [in_size] labels, and [Layer::back_propogate] runs on the tail with
    it, weight updates included. *)
Theorem cnn_back_propogate_checks_no_length fuel (c : CNN.t) h tl l labels :
  CNN.tail c = Some tl → h !! tl = Some l →
  length (Layer.values l) = Layer.in_size l →
  Layer.in_size l ≤ length labels →
  CNN.initial_delta tl labels h
  = Ok (output_delta (Layer.values l) (take (Layer.in_size l) labels)) ∧
  CNN.back_propogate fuel c labels h
  = back_propogate fuel tl
      (output_delta (Layer.values l) (take (Layer.in_size l) labels)) h ∧
  (∀ what, CNN.back_propogate fuel c labels h ≠ Thrown what).
Proof.
  intros Htl Hl Hvs Hlabels.
  assert (CNN.initial_delta tl labels h
          = Ok (output_delta (Layer.values l)
                  (take (Layer.in_size l) labels))) as Hdelta.
  { rewrite <- Hvs, output_delta_take.
    by apply initial_delta_result. }
  assert (CNN.back_propogate fuel c labels h
          = back_propogate fuel tl
              (output_delta (Layer.values l)
                 (take (Layer.in_size l) labels)) h) as Hcall.
  { unfold CNN.back_propogate. by rewrite Htl, Hdelta. }
  split_and!; [done | done |].
  intros what. rewrite Hcall.
  apply (keeps_not_thrown (λ _, True)), back_propogate_keeps.
Qed.

(** C7 (amended): [add_tail] checks no topology.  Called on a layer
    that has a successor already, with both layers alive, it returns:
    [next] of this layer is overwritten with the new layer, [prev] of
    the new layer is set to this layer, and every other layer, the
    former successor among them, is left as it was. *)
Theorem add_tail_overwrites_links h this old q l ql :
  h !! this = Some l → Layer.next l = Some old → h !! q = Some ql →
  ∃ h',
    add_tail this (Some q) h = Ok h' ∧
    (∃ l', h' !! this = Some l' ∧ Layer.next l' = Some q) ∧
    (∃ ql', h' !! q = Some ql' ∧ Layer.prev ql' = Some this) ∧
    (∀ r, r ≠ this → r ≠ q → h' !! r = h !! r).
Proof.
  intros Hl _ Hq. destruct (decide (this = q)) as [->|Hne].
  - eexists. split; [|split_and!].
    + apply add_tail_result; [done|]. apply lookup_insert_eq.
    + eexists. by rewrite lookup_insert_eq.
    + eexists. by rewrite lookup_insert_eq.
    + intros r Hr _. by rewrite !lookup_insert_ne.
  - eexists. split; [|split_and!].
    + apply add_tail_result; [done|]. by rewrite lookup_insert_ne.
    + eexists. by rewrite lookup_insert_ne, lookup_insert_eq.
    + eexists. by rewrite lookup_insert_eq.
    + intros r Hr Hr'. by rewrite !lookup_insert_ne.
Qed.

(** C8 (amended): [dot] throws exactly when its two vectors differ in
    length; an iteration of [forward_propogate] throws exactly when its
    call of [dot] does; and from a heap in which every layer holds
    [in_size] activations and every pair of adjacent layers satisfies
    the two conditions on the weight matrix and on the successor's
    activations ([shape_invariant]), no run of [forward_propogate]
    throws, so no call of [dot] made along it takes the failing branch.
    The first condition is needed: the other two alone do not keep
    [dot] from throwing. *)
Theorem dot_is_safe_under_shape_invariant :
  (∀ a b : vec_t, (∃ what, dot a b = Thrown what) ↔ length a ≠ length b) ∧
  (∀ this nxt i h what,
      forward_body this nxt i h = Thrown what ↔
      ∃ l (w : vec_t), h !! this = Some l ∧ Layer.weights l !! i = Some w ∧
                       dot w (Layer.values l) = Thrown what) ∧
  (∀ h, shape_invariant h →
      ∀ fuel this what, forward_propogate fuel this h ≠ Thrown what).
Proof.
  split_and!.
  - intros a b. split.
    + intros [what Hthrow]. by apply dot_Thrown in Hthrow as [? _].
    + intros Hne. exists "different sizes". by apply dot_Thrown.
  - intros this nxt i h what. unfold forward_body, load, vget.
    destruct (h !! this) as [l|] eqn:Hl; simpl; cycle 1.
    { split; [done | by intros (? & ? & ? & _)]. }
    destruct (Layer.weights l !! i) as [w|] eqn:Hw; simpl; cycle 1.
    { split; [done|]. intros (l' & w' & [= <-] & Hw' & _). congruence. }
    destruct (dot w (Layer.values l)) as [x|what'| |] eqn:Hdot; simpl.
    + split; [|intros (l' & w' & [= <-] & Hw' & Hd); congruence].
      intros Hthrow. exfalso.
      destruct (h !! nxt) as [nl|]; simpl in *; [|done].
      destruct (Layer.biases nl !! i); simpl in *; [|done].
      unfold vset in Hthrow. by case_decide.
    + split; [intros [= ->]; eauto|].
      intros (l' & w' & [= <-] & Hw' & Hd). congruence.
    + split; [done | intros (l' & w' & [= <-] & Hw' & Hd); congruence].
    + split; [done | intros (l' & w' & [= <-] & Hw' & Hd); congruence].
  - intros h Hinv fuel this what.
    by apply (keeps_not_thrown shape_invariant), forward_propogate_shape.
Qed.

(** C10: after the calls of [add] for a sequence of [N >= 1] distinct
    live layers on the empty network, [head()] is the first of them,
    [tail()] the last, [next] of each refers to the layer added right
    after it and [prev] to the one added right before it, and walking
    [next] from the head reaches the tail after [N] layers. *)
Theorem add_builds_the_chain h (ps : list ptr) :
  ps ≠ [] → NoDup ps → (∀ p, p ∈ ps → is_Some (h !! p)) →
  ∃ c h',
    CNN.add_all (Some <$> ps) (CNN.mk [], h) = Ok (c, h') ∧
    CNN.head c = head ps ∧
    CNN.tail c = last ps ∧
    (∀ i p, ps !! i = Some p →
       ∃ l, h' !! p = Some l ∧
         (∀ q, ps !! S i = Some q → Layer.next l = Some q) ∧
         (∀ k q, i = S k → ps !! k = Some q → Layer.prev l = Some q)) ∧
    (∀ hd tl, CNN.head c = Some hd → CNN.tail c = Some tl →
       chain_length (length ps) h' hd tl = Some (length ps)).
Proof.
  intros Hne Hnd Halloc.
  destruct (add_all_wired ps h Hnd Halloc) as (h' & Hadd & _ & Hw).
  exists (CNN.mk (Some <$> ps)), h'.
  rewrite head_fmap_Some, tail_fmap_Some.
  split_and!; [done | done | done | exact Hw |].
  intros hd tl Hhd Htl. destruct ps as [|p rest]; [done|].
  simpl in Hhd. injection Hhd as ->.
  by apply (chain_length_wired [] rest hd tl h').
Qed.

Context `{!RandomOps}.

(** C6 (amended): the biases of a layer are the zeros its constructor
    puts there, one per neuron; neither [init] nor the backward pass
    writes a bias: whenever [CNN::init], [Layer::back_propogate] or
    [CNN::back_propogate] returns, every layer has the biases it had
    before the call. *)
Theorem biases_are_never_written :
  (∀ in_size out_size weight_size bias_size,
      Layer.biases (Layer.new in_size out_size weight_size bias_size)
      = replicate in_size f_zero) ∧
  (∀ (c : CNN.t) (s s' : heap * random_device),
      CNN.init c s = Ok s' → same_biases s.1 s'.1) ∧
  (∀ fuel this delta h h',
      back_propogate fuel this delta h = Ok h' → same_biases h h') ∧
  (∀ fuel (c : CNN.t) labels h h',
      CNN.back_propogate fuel c labels h = Ok h' → same_biases h h').
Proof.
  split_and!.
  - intros. simpl. unfold resize. rewrite take_nil. simpl.
    by rewrite Nat.sub_0_r.
  - intros c s s' Hinit. pose proof (init_layers_biases (CNN.layers c) s) as Hb.
    unfold CNN.init in Hinit. by rewrite Hinit in Hb.
  - intros fuel this delta h h' Hback.
    pose proof (back_propogate_biases fuel this delta h) as Hb.
    by rewrite Hback in Hb.
  - intros fuel c labels h h' Hback. unfold CNN.back_propogate in Hback.
    destruct (CNN.tail c) as [tl|]; [|done].
    destruct (CNN.initial_delta tl labels h) as [delta| | |]; [|done..].
    simpl in Hback.
    pose proof (back_propogate_biases fuel tl delta h) as Hb.
    by rewrite Hback in Hb.
Qed.
End claims.

Lemma terminal_layers_are_noops_witness :
  @forward_propogate real_ops 1 2 Sample.net_heap = Ok Sample.net_heap ∧
  @back_propogate real_ops 1 1 [] Sample.net_heap = Ok Sample.net_heap.
Proof.
  split.
  - by apply (proj1 (@terminal_layers_are_noops real_ops) 0 Sample.net_heap
                2%positive Sample.output).
  - by apply (proj2 (@terminal_layers_are_noops real_ops) 0 Sample.net_heap
                1%positive Sample.input).
Defined.

(** ** The sigmoid over the reals *)


(** ** Runs on the example network *)

Example dot_of_two_pairs :
  @dot real_ops [1; 2]%R [3; 4]%R = Ok (0 + 1 * 3 + 2 * 4)%R.
Proof. reflexivity. Qed.

Example dot_of_unequal_lengths :
  @dot real_ops [1; 2]%R [3]%R = Thrown "different sizes".
Proof. reflexivity. Qed.

Example write_out_of_range : vset [1; 2; 3] 3 0 = Undefined.
Proof. reflexivity. Qed.

Example constructed_layer :
  Sample.spare
  = @Layer.mk real_ops None None [0%R] [0%R] [] 1 1 0 0.
Proof. reflexivity. Qed.

Example empty_network_has_no_ends :
  CNN.head (CNN.mk []) = None ∧ CNN.tail (CNN.mk []) = None.
Proof. done. Qed.

Example forward_propogate_on_nothing :
  @CNN.forward_propogate real_ops 5 (CNN.mk []) Sample.net_heap = Undefined.
Proof. reflexivity. Qed.

(** The layers of [main], added in its order, end up wired as expected. *)
Example main_adds :
  @CNN.add_all real_ops
    [Some 1%positive; Some 2%positive; Some 3%positive]
    (CNN.mk [], Sample.main_heap)
  = Ok (Sample.main_net, Sample.main_wired).
Proof. reflexivity. Qed.

(** One layer object added twice is its own successor and predecessor:
    a chain is made of distinct layers. *)
Example one_layer_added_twice :
  ∃ h' l,
    @CNN.add_all real_ops [Some 3%positive; Some 3%positive]
      (CNN.mk [], Sample.main_heap)
    = Ok (CNN.mk [Some 3%positive; Some 3%positive], h') ∧
    h' !! 3%positive = Some l ∧
    Layer.next l = Some 3%positive ∧ Layer.prev l = Some 3%positive.
Proof. eexists _, _. split; [reflexivity|]. by split. Qed.



Lemma example_linked : @linked real_ops Sample.input Sample.output.
Proof. split; [reflexivity|]. split; [repeat constructor | reflexivity]. Qed.


Lemma prev_delta_is_the_last_rows_witness :
  ∃ (pd : list R) h',
    @back_loops real_ops 1 [1; 1]%R 2 Sample.net_heap = Ok (h', pd) ∧
    pd = @row_delta real_ops 1%R [1; 1]%R
           (@updated_row real_ops 1%R [1; 1]%R [0; 0]%R).
Proof.
  destruct (@prev_delta_is_the_last_rows real_ops 0 Sample.net_heap
              2%positive 1%positive Sample.output Sample.input [1; 1]%R)
    as (m & dm & w & pd & Hm & Hdm & Hw & Hpd & (h' & Hloops & _) & _);
    [reflexivity | reflexivity | reflexivity | reflexivity | reflexivity
    | exact example_linked | reflexivity | simpl; lia |].
  injection Hm as <-. injection Hdm as <-. injection Hw as <-.
  exists pd, h'. split; [exact Hloops | exact Hpd].
Defined.

Lemma cnn_back_propogate_seeds_tail_witness :
  ∃ delta : list R,
    @CNN.initial_delta real_ops 2 [1; 1]%R Sample.net_heap = Ok delta ∧
    @CNN.back_propogate real_ops 2 Sample.net [1; 1]%R Sample.net_heap
    = @back_propogate real_ops 2 2 delta Sample.net_heap.
Proof.
  destruct (@cnn_back_propogate_seeds_tail real_ops 2 Sample.net
              Sample.net_heap 2%positive Sample.output [1; 1]%R)
    as (delta & Hdelta & _ & _ & Hcall);
    [reflexivity | reflexivity | reflexivity | reflexivity |].
  exists delta. split; [exact Hdelta | exact Hcall].
Defined.

Lemma cnn_back_propogate_checks_no_length_witness :
  @CNN.back_propogate real_ops 2 Sample.net [1; 1; 1]%R Sample.net_heap
  = @back_propogate real_ops 2 2
      (@output_delta real_ops (Layer.values Sample.output)
         (take 2 [1; 1; 1]%R))
      Sample.net_heap.
Proof.
  destruct (@cnn_back_propogate_checks_no_length real_ops 2 Sample.net
              Sample.net_heap 2%positive Sample.output [1; 1; 1]%R)
    as (_ & Hcall & _);
    [reflexivity | reflexivity | reflexivity | simpl; lia |].
  exact Hcall.
Defined.

(** The backward pass on the example network, for labels [labels] of
    which the first two are read. *)
Lemma example_back_propogate (labels : list R) :
  2 ≤ length labels →
  ∃ ws' : list (list R),
    @CNN.back_propogate real_ops 2 Sample.net labels Sample.net_heap
    = Ok (<[1%positive := Layer.set_weights Sample.input ws']>
            Sample.net_heap) ∧
    ws' = @updated_weights real_ops 2
            (@output_delta real_ops (Layer.values Sample.output) labels)
            (Layer.values Sample.input) (Layer.weights Sample.input).
Proof.
  intros Hlabels.
  set (delta := @output_delta real_ops (Layer.values Sample.output) labels).
  assert (@CNN.initial_delta real_ops 2 labels Sample.net_heap = Ok delta)
    as Hdelta.
  { apply (@initial_delta_result real_ops 2%positive labels Sample.net_heap
             Sample.output); [reflexivity | reflexivity | exact Hlabels]. }
  assert (length delta = 2) as Hlen.
  { unfold delta, output_delta. rewrite length_zip_with.
    change (length (Layer.values Sample.output)) with 2.
    change (@float_t real_ops) with R. lia. }
  pose proof (@back_loops_result real_ops Sample.net_heap 1%positive
                Sample.input delta 2 eq_refl eq_refl) as Hloops.
  specialize (Hloops ltac:(lia) ltac:(simpl; lia) ltac:(repeat constructor)).
  pose proof (@back_propogate_step real_ops 1 Sample.net_heap 2%positive
                1%positive Sample.output delta _ eq_refl eq_refl Hloops)
    as Hstep.
  eexists. split; [|reflexivity].
  transitivity (@back_propogate real_ops 2 2 delta Sample.net_heap).
  { unfold CNN.back_propogate.
    change (CNN.tail Sample.net) with (Some 2%positive). cbv beta iota.
    by rewrite Hdelta. }
  rewrite Hstep. cbn [fst snd].
  eapply (@back_propogate_head real_ops 0); [apply lookup_insert_eq|].
  reflexivity.
Qed.

(** C4, as stated, fails: with three labels for a tail of two neurons
    the call returns, and the weights of the input layer have changed. *)
Lemma cnn_back_propogate_accepts_long_labels :
  length [1; 1; 1]%R ≠ Layer.in_size Sample.output ∧
  ∃ h' pl',
    @CNN.back_propogate real_ops 2 Sample.net [1; 1; 1]%R Sample.net_heap
    = Ok h' ∧
    h' !! 1%positive = Some pl' ∧
    Layer.weights pl' ≠ Layer.weights Sample.input.
Proof.
  split; [simpl; lia|].
  destruct (example_back_propogate [1; 1; 1]%R) as (ws' & Hcall & Hws');
    [simpl; lia|].
  eexists _, _. split; [exact Hcall|]. split; [apply lookup_insert_eq|].
  simpl. rewrite Hws'. unfold updated_weights, output_delta, updated_row.
  simpl. intros Heq. injection Heq as Heq _. lra.
Qed.

Lemma biases_are_never_written_witness :
  (∃ s' : gmap positive (@Layer.t real_ops) * nat,
      @CNN.init real_ops real_random Sample.main_net (Sample.main_wired, 0)
      = Ok s' ∧
      @same_biases real_ops Sample.main_wired s'.1) ∧
  (∃ h',
      @CNN.back_propogate real_ops 2 Sample.net [1; 1]%R Sample.net_heap
      = Ok h' ∧
      @same_biases real_ops Sample.net_heap h').
Proof.
  split.
  - eexists. split; [reflexivity|].
    apply (proj1 (proj2 (@biases_are_never_written real_ops real_random))
             Sample.main_net (Sample.main_wired, 0)).
    reflexivity.
  - destruct (example_back_propogate [1; 1]%R) as (ws' & Hcall & _);
      [simpl; lia|].
    eexists. split; [exact Hcall|].
    apply (proj2 (proj2 (proj2 (@biases_are_never_written real_ops
                                  real_random)))
             2 Sample.net [1; 1]%R Sample.net_heap).
    exact Hcall.
Defined.

(** C6, as stated, fails: there is no execution, in any arithmetic and
    with any random source, in which [init] or the backward pass returns
    with a bias changed. *)
Lemma no_run_changes_a_bias :
  (¬ ∃ (ops : FloatOps) (rnd : RandomOps) (c : CNN.t)
       (s s' : gmap positive Layer.t * random_device) p l l',
       CNN.init c s = Ok s' ∧
       s.1 !! p = Some l ∧ s'.1 !! p = Some l' ∧
       Layer.biases l' ≠ Layer.biases l) ∧
  (¬ ∃ (ops : FloatOps) fuel this (delta : vec_t)
       (h h' : gmap positive Layer.t) p l l',
       back_propogate fuel this delta h = Ok h' ∧
       h !! p = Some l ∧ h' !! p = Some l' ∧
       Layer.biases l' ≠ Layer.biases l).
Proof.
  split.
  - intros (ops & rnd & c & s & s' & p & l & l' & Hinit & Hl & Hl' & Hne).
    pose proof (init_layers_biases (CNN.layers c) s) as Hb.
    unfold CNN.init in Hinit. rewrite Hinit in Hb. simpl in Hb.
    destruct (Hb p l Hl) as (l'' & Hl'' & Heq). congruence.
  - intros (ops & fuel & this & delta & h & h' & p & l & l' & Hback & Hl & Hl'
            & Hne).
    pose proof (back_propogate_biases fuel this delta h) as Hb.
    rewrite Hback in Hb. simpl in Hb.
    destruct (Hb p l Hl) as (l'' & Hl'' & Heq). congruence.
Qed.

Lemma add_tail_overwrites_links_witness :
  ∃ h' l',
    @add_tail real_ops 1 (Some 3%positive) Sample.spare_heap = Ok h' ∧
    h' !! 1%positive = Some l' ∧ Layer.next l' = Some 3%positive.
Proof.
  destruct (@add_tail_overwrites_links real_ops Sample.spare_heap
              1%positive 2%positive 3%positive Sample.input Sample.spare)
    as (h' & Hadd & (l' & Hl' & Hnext) & _);
    [reflexivity | reflexivity | reflexivity |].
  exists h', l'. split; [exact Hadd|]. split; [exact Hl' | exact Hnext].
Defined.

(** C7, as stated, fails: the input layer of the example network has the
    output layer as its successor; [add_tail] on it with a third layer
    returns, and the successor is the third layer from then on. *)
Lemma add_tail_on_a_linked_layer_returns :
  Layer.next Sample.input = Some 2%positive ∧
  ∃ h' l',
    @add_tail real_ops 1 (Some 3%positive) Sample.spare_heap = Ok h' ∧
    h' !! 1%positive = Some l' ∧
    Layer.next l' = Some 3%positive ∧
    Layer.next l' ≠ Layer.next Sample.input.
Proof.
  split; [reflexivity|].
  eexists _, _. split; [|split; [|split]].
  - apply (@add_tail_result real_ops 1%positive 3%positive Sample.spare_heap
             Sample.input Sample.spare); reflexivity.
  - reflexivity.
  - reflexivity.
  - discriminate.
Qed.

Lemma example_shape_invariant : @shape_invariant real_ops Sample.net_heap.
Proof.
  intros p l Hp. unfold Sample.net_heap in Hp.
  destruct (decide (p = 1%positive)) as [->|Hp1].
  - rewrite lookup_insert_eq in Hp. injection Hp as <-.
    split; [reflexivity|]. intros q Hq. injection Hq as <-.
    exists Sample.output. split; [reflexivity | exact example_linked].
  - rewrite lookup_insert_ne in Hp by done.
    destruct (decide (p = 2%positive)) as [->|Hp2].
    + rewrite lookup_insert_eq in Hp. injection Hp as <-.
      split; [reflexivity|]. intros q Hq. discriminate.
    + rewrite lookup_insert_ne in Hp by done. by rewrite lookup_empty in Hp.
Qed.

Lemma dot_is_safe_under_shape_invariant_witness :
  @shape_invariant real_ops Sample.net_heap ∧
  @forward_propogate real_ops 2 1 Sample.net_heap ≠ Thrown "different sizes" ∧
  ∃ h', @forward_propogate real_ops 2 1 Sample.net_heap = Ok h'.
Proof.
  split; [exact example_shape_invariant|]. split.
  - apply (proj2 (proj2 (@dot_is_safe_under_shape_invariant real_ops))
             Sample.net_heap example_shape_invariant 2 1%positive
             "different sizes").
  - destruct (@forward_propogate_step real_ops 1 Sample.net_heap
                1%positive 2%positive Sample.input Sample.output)
      as (vs & _ & _ & Hrec);
      [discriminate | reflexivity | reflexivity | reflexivity | reflexivity
      | exact example_linked | simpl; lia |].
    eexists. rewrite Hrec.
    eapply forward_propogate_tail; [apply lookup_insert_eq | reflexivity].
Defined.

(** The shape invariant is the two conditions on adjacent layers
    together with the length of every layer's activations. *)
Lemma shape_invariant_listed `{FloatOps} (h : gmap positive Layer.t) :
  shape_invariant h ↔
  listed_invariant h ∧
  ∀ p l, h !! p = Some l → length (Layer.values l) = Layer.in_size l.
Proof.
  split.
  - intros Hinv. split.
    + intros p l Hl. by destruct (Hinv p l Hl).
    + intros p l Hl. by destruct (Hinv p l Hl).
  - intros [Hlisted Hvalues] p l Hl. split; [by eapply Hvalues|].
    by apply (Hlisted p).
Qed.

(** C8, as stated, fails: the two conditions it lists hold in both
    heaps, and the forward pass throws from [dot]: at a head layer of
    two neurons holding three input values, and at a middle layer whose
    [in_size] is not the [out_size] of the layer before it. *)
Lemma listed_conditions_do_not_stop_dot :
  (@listed_invariant real_ops Misshapen.long_input ∧
   @forward_propogate real_ops 2 1 Misshapen.long_input
   = Thrown "different sizes") ∧
  (@listed_invariant real_ops Misshapen.middle ∧
   @forward_propogate real_ops 3 1 Misshapen.middle
   = Thrown "different sizes").
Proof.
  split; (split; [|reflexivity]); intros p l Hp q Hq.
  - unfold Misshapen.long_input in Hp.
    destruct (decide (p = 1%positive)) as [->|Hp1].
    { rewrite lookup_insert_eq in Hp. injection Hp as <-.
      injection Hq as <-. eexists. split; [reflexivity|].
      split; [reflexivity|]. split; [repeat constructor | reflexivity]. }
    rewrite lookup_insert_ne in Hp by done.
    destruct (decide (p = 2%positive)) as [->|Hp2].
    { rewrite lookup_insert_eq in Hp. injection Hp as <-. discriminate. }
    rewrite lookup_insert_ne in Hp by done. by rewrite lookup_empty in Hp.
  - unfold Misshapen.middle in Hp.
    destruct (decide (p = 1%positive)) as [->|Hp1].
    { rewrite lookup_insert_eq in Hp. injection Hp as <-.
      injection Hq as <-. eexists. split; [reflexivity|].
      split; [reflexivity|]. split; [repeat constructor | reflexivity]. }
    rewrite lookup_insert_ne in Hp by done.
    destruct (decide (p = 2%positive)) as [->|Hp2].
    { rewrite lookup_insert_eq in Hp. injection Hp as <-.
      injection Hq as <-. eexists. split; [reflexivity|].
      split; [reflexivity|]. split; [repeat constructor | reflexivity]. }
    rewrite lookup_insert_ne in Hp by done.
    destruct (decide (p = 3%positive)) as [->|Hp3].
    { rewrite lookup_insert_eq in Hp. injection Hp as <-. discriminate. }
    rewrite lookup_insert_ne in Hp by done. by rewrite lookup_empty in Hp.
Qed.

Lemma add_builds_the_chain_witness :
  ∃ c h',
    @CNN.add_all real_ops
      [Some 1%positive; Some 2%positive; Some 3%positive]
      (CNN.mk [], Sample.main_heap) = Ok (c, h') ∧
    CNN.head c = Some 1%positive ∧
    CNN.tail c = Some 3%positive ∧
    @chain_length real_ops 3 h' 1 3 = Some 3.
Proof.
  destruct (@add_builds_the_chain real_ops Sample.main_heap
              [1%positive; 2%positive; 3%positive])
    as (c & h' & Hadd & Hhead & Htail & _ & Hchain).
  - discriminate.
  - apply NoDup_ListNoDup. repeat constructor; simpl; intuition discriminate.
  - intros p Hp. apply list_elem_of_In in Hp. simpl in Hp.
    destruct Hp as [<-|[<-|[<-|[]]]]; eexists; reflexivity.
  - exists c, h'. split; [exact Hadd|]. split; [exact Hhead|].
    split; [exact Htail|]. apply Hchain; [exact Hhead | exact Htail].
Defined.

(** * More of the program *)

(** ** The helpers that compare sizes *)

Section helpers.
Context `{FloatOps}.
Implicit Types (a b y : vec_t).

(** X1: [dot], [cost] and [error] throw "different sizes" exactly when
    their two vectors differ in length; with equal lengths [dot] and
    [cost] return, and [error] never returns a vector: it has no
    [return] statement. *)
Theorem size_checks a b :
  (length a ≠ length b →
     dot a b = Thrown "different sizes" ∧
     cost a b = Thrown "different sizes" ∧
     error a b = Thrown "different sizes") ∧
  (length a = length b →
     (∃ x, dot a b = Ok x) ∧ (∃ x, cost a b = Ok x) ∧
     error a b = Undefined) ∧
  (∀ v, error a b ≠ Ok v).
Proof.
  unfold dot, cost, error. split_and!.
  - intros Hne. by rewrite !decide_True.
  - intros Heq. rewrite !decide_False by (intros ?; done). eauto.
  - intros v. by case_decide.
Qed.

(** X2: [df(y, i)] for [i] in range returns a vector as long as [y] that
    is zero everywhere but at [i], where it holds y[i] * (1 - y[i]);
    for [i] out of range both subscripts are out of range. *)
Theorem df_at_one_hot y i :
  (∀ yi, y !! i = Some yi →
     ∃ v, df_at y i = Ok v ∧ length v = length y ∧
          v !! i = Some (fmul yi (fsub f_one yi)) ∧
          ∀ j, j ≠ i → j < length y → v !! j = Some f_zero) ∧
  (length y ≤ i → df_at y i = Undefined).
Proof.
  split.
  - intros yi Hyi. unfold df_at. rewrite (vget_Ok _ _ _ Hyi). simpl.
    assert (i < length y) as Hi by (by eapply lookup_lt_Some).
    rewrite vset_Ok by (by rewrite length_replicate).
    eexists. split; [done|]. split_and!.
    + by rewrite length_insert, length_replicate.
    + apply list_lookup_insert_eq. by rewrite length_replicate.
    + intros j Hne Hj. rewrite list_lookup_insert_ne by done.
      by apply lookup_replicate_2.
  - intros Hi. unfold df_at, vget. by rewrite lookup_ge_None_2.
Qed.
End helpers.

(** ** Loops that stop early *)

Section early_exit.
Context {S : Type}.
Implicit Types (body : nat → S → outcome S) (s : S).

Lemma for_each_seq_from body k m s :
  for_each (seq k (Datatypes.S m)) body s
  = s' ← body k s; for_each (seq (Datatypes.S k) m) body s'.
Proof. done. Qed.

(** The iterations before [k] return and iteration [k] is undefined
    from every state: so is the loop. *)
Lemma for_loop_undefined n k body s :
  k < n →
  (∀ i s, i < k → ∃ s', body i s = Ok s') →
  (∀ s, body k s = Undefined) →
  for_loop n body s = Undefined.
Proof.
  intros Hk Hbefore Hat.
  destruct (for_loop_inv (λ _ _, True) k body s) as (s1 & Hs1 & _);
    [done | |].
  { intros i s0 Hi _. destruct (Hbefore i s0 Hi) as [s' Hs']. eauto. }
  unfold for_loop in *.
  replace n with (k + Datatypes.S (n - Datatypes.S k)) by lia.
  rewrite seq_app, for_each_app, Hs1. simpl. by rewrite Hat.
Qed.
End early_exit.

(** ** Printing the weights *)

Section printing.
Context `{FloatOps}.
Implicit Types (h : heap) (l : Layer.t) (ws : list vec_t) (w : vec_t).
Implicit Types (out : list (float_t * nat * nat)).

(** The triples printed for a row, and for a matrix. *)
Lemma print_row ws i w n out :
  ws !! i = Some w → n ≤ length w →
  for_loop n (print_weights_body ws i) out
  = Ok (out ++ imap (λ j x, (x, i, j)) (take n w)).
Proof.
  intros Hw Hn.
  destruct (for_loop_inv
    (λ k o, k ≤ n → o = out ++ imap (λ j x, (x, i, j)) (take k w))
    n (print_weights_body ws i) out) as (o & Hloop & Ho).
  - intros _. simpl. by rewrite app_nil_r.
  - intros k o Hk Ho. specialize (Ho ltac:(lia)). subst o.
    destruct (lookup_lt_is_Some_2 w k) as [x Hx]; [lia|].
    eexists. split.
    + unfold print_weights_body. rewrite (vget_Ok _ _ _ Hw). simpl.
      by rewrite (vget_Ok _ _ _ Hx).
    + intros _. rewrite (take_S_r _ _ _ Hx), imap_app, <- app_assoc. simpl.
      rewrite length_take_le by lia. by rewrite Nat.add_0_r.
  - rewrite Hloop. f_equal. by apply Ho.
Qed.

Lemma print_rows ws m n out :
  m ≤ length ws → Forall (λ w, n ≤ length w) ws →
  for_loop m (λ i, for_loop n (print_weights_body ws i)) out
  = Ok (out ++ concat (imap (λ i w, imap (λ j x, (x, i, j)) (take n w))
                         (take m ws))).
Proof.
  intros Hm Hrows.
  destruct (for_loop_inv
    (λ k o, k ≤ m →
       o = out ++ concat (imap (λ i w, imap (λ j x, (x, i, j)) (take n w))
                            (take k ws)))
    m (λ i, for_loop n (print_weights_body ws i)) out) as (o & Hloop & Ho).
  - intros _. simpl. by rewrite app_nil_r.
  - intros k o Hk Ho. specialize (Ho ltac:(lia)). subst o.
    destruct (lookup_lt_is_Some_2 ws k) as [w Hw]; [lia|].
    pose proof (Forall_lookup_1 _ _ _ _ Hrows Hw) as Hlw. simpl in Hlw.
    eexists. split; [by apply (print_row ws k w n)|].
    intros _. rewrite (take_S_r _ _ _ Hw), imap_app, concat_app.
    rewrite <- app_assoc. simpl. rewrite length_take_le by lia.
    by rewrite Nat.add_0_r, app_nil_r.
  - rewrite Hloop. f_equal. by apply Ho.
Qed.

(** X3: [print_weights] walks the matrix with its two bounds swapped:
    [i] runs to [in_size] over the rows, [j] to [out_size] over the
    columns.  On a layer with a successor and weights of [out_size] rows
    of [in_size] columns it prints every weight with its indices, row by
    row, when the two sizes are equal, and reads out of range when they
    differ and neither is zero; on a layer without successor it prints
    nothing. *)
Theorem print_weights_swaps_its_bounds h this l out :
  h !! this = Some l →
  (Layer.next l = None → print_weights this h out = Ok out) ∧
  (is_Some (Layer.next l) →
   length (Layer.weights l) = Layer.out_size l →
   Forall (λ w, length w = Layer.in_size l) (Layer.weights l) →
   (Layer.in_size l = Layer.out_size l →
      print_weights this h out
      = Ok (out ++ concat (imap (λ i w, imap (λ j x, (x, i, j)) w)
                             (Layer.weights l)))) ∧
   (Layer.in_size l ≠ Layer.out_size l →
    0 < Layer.in_size l → 0 < Layer.out_size l →
      print_weights this h out = Undefined)).
Proof.
  intros Hl. unfold print_weights. rewrite (load_Ok _ _ _ Hl). simpl.
  split; [by intros ->|].
  intros [q ->] Hrows Hcols. split.
  - intros Heq. rewrite print_rows; [|lia|].
    + do 3 f_equal. rewrite take_ge by lia.
      apply imap_ext. intros i w Hw. simpl.
      pose proof (Forall_lookup_1 _ _ _ _ Hcols Hw) as Hlw. simpl in Hlw.
      by rewrite take_ge by lia.
    + eapply Forall_impl; [exact Hcols|]. intros w Hw. simpl in *. lia.
  - intros Hne Hin Hout.
    destruct (decide (Layer.in_size l < Layer.out_size l)) as [Hlt|Hge].
    + (* row 0 has [in_size] columns: column [in_size] is out of range *)
      destruct (lookup_lt_is_Some_2 (Layer.weights l) 0) as [w Hw]; [lia|].
      pose proof (Forall_lookup_1 _ _ _ _ Hcols Hw) as Hlw. simpl in Hlw.
      apply (for_loop_undefined _ 0); [lia | intros; lia |].
      intros o. apply (for_loop_undefined _ (Layer.in_size l)); [lia | |].
      * intros j o' Hj. destruct (lookup_lt_is_Some_2 w j) as [x Hx]; [lia|].
        eexists. unfold print_weights_body. rewrite (vget_Ok _ _ _ Hw). simpl.
        by rewrite (vget_Ok _ _ _ Hx).
      * intros o'. unfold print_weights_body. rewrite (vget_Ok _ _ _ Hw).
        simpl. unfold vget. by rewrite lookup_ge_None_2 by lia.
    + (* there are [out_size] rows: row [out_size] is out of range *)
      apply (for_loop_undefined _ (Layer.out_size l)); [lia | |].
      * intros i o Hi.
        destruct (lookup_lt_is_Some_2 (Layer.weights l) i) as [w Hw]; [lia|].
        pose proof (Forall_lookup_1 _ _ _ _ Hcols Hw) as Hlw. simpl in Hlw.
        eexists. apply (print_row _ i w); [done | lia].
      * intros o. apply (for_loop_undefined _ 0); [lia | intros; lia |].
        intros o'. unfold print_weights_body, vget.
        by rewrite lookup_ge_None_2 by lia.
Qed.
End printing.

(** ** Heaps related layer by layer *)

Section relations.
Context `{FloatOps}.
Implicit Types (h : heap) (l : Layer.t) (R : Layer.t → Layer.t → Prop).

Lemma heap_rel_refl R h : (∀ l, R l l) → heap_rel R h h.
Proof. intros HR p. by destruct (h !! p). Qed.

Lemma heap_rel_trans R h1 h2 h3 :
  (∀ l1 l2 l3, R l1 l2 → R l2 l3 → R l1 l3) →
  heap_rel R h1 h2 → heap_rel R h2 h3 → heap_rel R h1 h3.
Proof.
  intros HR H12 H23 p. specialize (H12 p). specialize (H23 p).
  destruct (h1 !! p), (h2 !! p), (h3 !! p); try done. by eapply HR.
Qed.

Lemma heap_rel_insert R h p l l' :
  (∀ l, R l l) → h !! p = Some l → R l l' → heap_rel R h (<[p := l']> h).
Proof.
  intros HR Hl Hll' q. destruct (decide (p = q)) as [->|Hne].
  - by rewrite lookup_insert_eq, Hl.
  - rewrite lookup_insert_ne by done. by destruct (h !! q).
Qed.

Lemma heap_rel_impl R R' h h' :
  (∀ l l', R l l' → R' l l') → heap_rel R h h' → heap_rel R' h h'.
Proof.
  intros HR Hh p. specialize (Hh p).
  destruct (h !! p), (h' !! p); try done. by apply HR.
Qed.

Lemma heap_rel_lookup R h h' p l :
  heap_rel R h h' → h !! p = Some l → ∃ l', h' !! p = Some l' ∧ R l l'.
Proof.
  intros Hh Hl. specialize (Hh p). rewrite Hl in Hh.
  destruct (h' !! p) as [l'|]; [eauto | done].
Qed.

Lemma heap_rel_lookup_inv R h h' p l' :
  heap_rel R h h' → h' !! p = Some l' → ∃ l, h !! p = Some l ∧ R l l'.
Proof.
  intros Hh Hl. specialize (Hh p). rewrite Hl in Hh.
  destruct (h !! p) as [l|]; [eauto | done].
Qed.

Lemma same_lengths_refl (ws : list vec_t) :
  Forall2 (λ w w' : vec_t, length w' = length w) ws ws.
Proof. apply Forall_Forall2_diag, Forall_forall. done. Qed.

Lemma same_lengths_trans (ws1 ws2 ws3 : list vec_t) :
  Forall2 (λ w w' : vec_t, length w' = length w) ws1 ws2 →
  Forall2 (λ w w' : vec_t, length w' = length w) ws2 ws3 →
  Forall2 (λ w w' : vec_t, length w' = length w) ws1 ws3.
Proof.
  intros H12. revert ws3. induction H12 as [|w1 w2 ws1 ws2 Hw H12 IH];
    intros ws3 H23; inversion H23; subst; constructor; [congruence | auto].
Qed.

Lemma same_lengths_insert (ws : list vec_t) i (w w' : vec_t) :
  ws !! i = Some w → length w' = length w →
  Forall2 (λ w w' : vec_t, length w' = length w) ws (<[i := w']> ws).
Proof.
  intros Hw Hlen. rewrite <- (list_insert_id ws i w Hw) at 1.
  apply Forall2_insert; [apply same_lengths_refl | done].
Qed.

Lemma same_lengths_Forall (ws ws' : list vec_t) n :
  Forall2 (λ w w' : vec_t, length w' = length w) ws ws' →
  Forall (λ w, length w = n) ws → Forall (λ w, length w = n) ws'.
Proof.
  induction 1 as [|w w' ws ws' Hw _ IH]; intros Hall; [done|].
  inversion Hall; subst. constructor; [congruence | auto].
Qed.

Lemma only_values_refl l : only_values l l.
Proof. exists (Layer.values l). by rewrite set_values_id. Qed.

Lemma only_values_trans l1 l2 l3 :
  only_values l1 l2 → only_values l2 l3 → only_values l1 l3.
Proof.
  intros (vs & -> & Hvs) (vs' & -> & Hvs'). exists vs'. split; [done|].
  simpl in Hvs'. congruence.
Qed.

Lemma only_weights_refl l : only_weights l l.
Proof.
  exists (Layer.weights l). rewrite set_weights_id.
  split; [done | apply same_lengths_refl].
Qed.

Lemma only_weights_trans l1 l2 l3 :
  only_weights l1 l2 → only_weights l2 l3 → only_weights l1 l3.
Proof.
  intros (ws & -> & Hws) (ws' & -> & Hws'). exists ws'. split; [done|].
  simpl in Hws'. by eapply same_lengths_trans.
Qed.

Lemma only_links_refl l : only_links l l.
Proof. exists (Layer.prev l), (Layer.next l). by destruct l. Qed.

Lemma only_links_trans l1 l2 l3 :
  only_links l1 l2 → only_links l2 l3 → only_links l1 l3.
Proof. intros (p & n & ->) (p' & n' & ->). by exists p', n'. Qed.

Lemma only_weights_any_refl l : only_weights_any l l.
Proof. exists (Layer.weights l). by rewrite set_weights_id. Qed.

Lemma only_weights_any_trans l1 l2 l3 :
  only_weights_any l1 l2 → only_weights_any l2 l3 → only_weights_any l1 l3.
Proof. intros (ws & ->) (ws' & ->). by exists ws'. Qed.

Lemma same_shape_refl l : same_shape l l.
Proof. unfold same_shape. split_and!; try done. apply same_lengths_refl. Qed.

Lemma same_shape_trans l1 l2 l3 :
  same_shape l1 l2 → same_shape l2 l3 → same_shape l1 l3.
Proof.
  intros (? & ? & ? & ? & ? & ? & ?) (? & ? & ? & ? & ? & ? & ?).
  unfold same_shape. split_and!; try congruence.
  by eapply same_lengths_trans.
Qed.

Lemma only_values_same_shape l l' : only_values l l' → same_shape l l'.
Proof.
  intros (vs & -> & Hvs). unfold same_shape. simpl.
  split_and!; try done. apply same_lengths_refl.
Qed.

Lemma only_weights_same_shape l l' : only_weights l l' → same_shape l l'.
Proof. intros (ws & -> & Hws). unfold same_shape. simpl. by split_and!. Qed.

(** What a change of that kind keeps. *)
Lemma same_shape_shape_invariant h h' :
  heap_rel same_shape h h' → shape_invariant h → shape_invariant h'.
Proof.
  intros Hrel Hinv p l' Hl'.
  destruct (heap_rel_lookup_inv _ _ _ _ _ Hrel Hl')
    as (l & Hl & Hp & Hn & Hi & Ho & Hv & Hb & Hw).
  destruct (Hinv p l Hl) as [Hvs Hnext]. split; [congruence|].
  intros q Hq. rewrite Hn in Hq.
  destruct (Hnext q Hq) as (nl & Hnl & Hrows & Hcols & Hnv).
  destruct (heap_rel_lookup _ _ _ _ _ Hrel Hnl)
    as (nl' & Hnl' & _ & _ & _ & _ & Hv' & _ & _).
  exists nl'. split; [done|]. unfold linked. split_and!.
  - rewrite <- (Forall2_length _ _ _ Hw). congruence.
  - rewrite Hi. by eapply same_lengths_Forall.
  - congruence.
Qed.

Lemma same_shape_biases_sized h h' :
  heap_rel same_shape h h' → biases_sized h → biases_sized h'.
Proof.
  intros Hrel Hb p l' Hl'.
  destruct (heap_rel_lookup_inv _ _ _ _ _ Hrel Hl')
    as (l & Hl & _ & _ & Hi & _ & _ & Hbl & _).
  specialize (Hb p l Hl). congruence.
Qed.

Lemma same_shape_back_linked h h' :
  heap_rel same_shape h h' → back_linked h → back_linked h'.
Proof.
  intros Hrel Hb p l' q Hl' Hq.
  destruct (heap_rel_lookup_inv _ _ _ _ _ Hrel Hl') as (l & Hl & Hp & _).
  rewrite Hp in Hq. destruct (Hb p l q Hl Hq) as (pl & Hpl & Hn).
  destruct (heap_rel_lookup _ _ _ _ _ Hrel Hpl) as (pl' & Hpl' & _ & Hn' & _).
  exists pl'. split; [done | congruence].
Qed.

Lemma same_shape_ends_within n h h' p :
  heap_rel same_shape h h' → ends_within n h p → ends_within n h' p.
Proof.
  intros Hrel. revert p. induction n as [|n IH]; intros p; [done|].
  intros (l & Hl & Hend).
  destruct (heap_rel_lookup _ _ _ _ _ Hrel Hl) as (l' & Hl' & _ & Hn & _).
  exists l'. split; [done|]. rewrite Hn.
  destruct (Layer.next l); [by apply IH | done].
Qed.

Lemma same_shape_begins_within n h h' p :
  heap_rel same_shape h h' → begins_within n h p → begins_within n h' p.
Proof.
  intros Hrel. revert p. induction n as [|n IH]; intros p; [done|].
  intros (l & Hl & Hend).
  destruct (heap_rel_lookup _ _ _ _ _ Hrel Hl) as (l' & Hl' & Hp & _).
  exists l'. split; [done|]. rewrite Hp.
  destruct (Layer.prev l); [by apply IH | done].
Qed.

Lemma ends_within_mono n m h p :
  n ≤ m → ends_within n h p → ends_within m h p.
Proof.
  revert m p. induction n as [|n IH]; intros m p Hle; [done|].
  destruct m as [|m]; [lia|]. intros (l & Hl & Hend).
  exists l. split; [done|].
  destruct (Layer.next l); [apply IH; [lia | done] | done].
Qed.

Lemma begins_within_mono n m h p :
  n ≤ m → begins_within n h p → begins_within m h p.
Proof.
  revert m p. induction n as [|n IH]; intros m p Hle; [done|].
  destruct m as [|m]; [lia|]. intros (l & Hl & Hend).
  exists l. split; [done|].
  destruct (Layer.prev l); [apply IH; [lia | done] | done].
Qed.

(** A chain that ends has no layer that is its own successor. *)
Lemma ends_within_no_self_loop n h p l :
  ends_within n h p → h !! p = Some l → Layer.next l ≠ Some p.
Proof.
  induction n as [|n IH]; [done|].
  intros (l0 & Hl0 & Hend) Hl Hself.
  assert (l0 = l) as -> by congruence. rewrite Hself in Hend. by apply IH.
Qed.
End relations.

(** ** What each pass writes *)

Section writes.
Context `{FloatOps}.
Implicit Types (h : heap) (l : Layer.t) (delta : vec_t).

Lemma vset_inv {A} (v v' : list A) i x :
  vset v i x = Ok v' → v' = <[i := x]> v ∧ i < length v.
Proof. unfold vset. case_decide; naive_solver. Qed.

Lemma vget_inv {A} (v : list A) i x : vget v i = Ok x → v !! i = Some x.
Proof. unfold vget. destruct (v !! i); naive_solver. Qed.

Lemma forward_body_writes h0 this nxt i h :
  heap_rel only_values h0 h →
  returns_with (heap_rel only_values h0) (forward_body this nxt i h).
Proof.
  intros Hrel. unfold forward_body. repeat case_outcome.
  apply load_inv in E2. apply vset_inv in E4 as [-> _].
  eapply heap_rel_trans; [apply only_values_trans | done |].
  eapply heap_rel_insert; [apply only_values_refl | done |].
  eexists. split; [done|]. by rewrite length_insert.
Qed.

Lemma forward_propogate_writes fuel this h :
  returns_with (heap_rel only_values h) (forward_propogate fuel this h).
Proof.
  revert this h. induction fuel as [|fuel IH]; intros this h; [done|].
  rewrite forward_propogate_unfold. case_outcome.
  destruct (Layer.next a) as [nxt|];
    [|apply heap_rel_refl, only_values_refl].
  assert (returns_with (heap_rel only_values h)
            (forward_loop this nxt (Layer.out_size a) h)) as Hloop.
  { apply for_loop_returns_with; [apply heap_rel_refl, only_values_refl|].
    intros. by apply forward_body_writes. }
  case_outcome. simpl in Hloop. pose proof (IH nxt a0) as Hrec.
  destruct (forward_propogate fuel nxt a0); simpl in *; try done.
  eapply heap_rel_trans; [apply only_values_trans | done | done].
Qed.

Lemma back_inner_body_writes h0 prv delta i j (s : heap * vec_t) :
  heap_rel only_weights h0 s.1 →
  returns_with (λ s' : heap * vec_t, heap_rel only_weights h0 s'.1)
    (back_inner_body prv delta i j s).
Proof.
  destruct s as [h pd]. intros Hrel. unfold back_inner_body.
  repeat case_outcome.
  apply load_inv in E. apply vget_inv in E0.
  apply vset_inv in E4 as [-> _]. apply vset_inv in E5 as [-> _].
  eapply heap_rel_trans; [apply only_weights_trans | done |].
  eapply heap_rel_insert; [apply only_weights_refl | done |].
  eexists. split; [done|]. apply (same_lengths_insert _ _ a0); [done|].
  by rewrite length_insert.
Qed.

Lemma back_loops_writes h prv delta n :
  returns_with (λ s' : heap * vec_t, heap_rel only_weights h s'.1)
    (back_loops prv delta n h).
Proof.
  unfold back_loops. case_outcome.
  apply (for_loop_returns_with
           (λ s' : heap * vec_t, heap_rel only_weights h s'.1)).
  { apply heap_rel_refl, only_weights_refl. }
  intros i s Hs. unfold back_outer_body. repeat case_outcome.
  apply (for_loop_returns_with
           (λ s' : heap * vec_t, heap_rel only_weights h s'.1)); [done|].
  intros. by apply back_inner_body_writes.
Qed.

Lemma back_propogate_writes fuel this delta h :
  returns_with (heap_rel only_weights h) (back_propogate fuel this delta h).
Proof.
  revert this delta h. induction fuel as [|fuel IH]; intros this delta h;
    [done|].
  rewrite back_propogate_unfold. case_outcome.
  destruct (Layer.prev a) as [prv|];
    [|apply heap_rel_refl, only_weights_refl].
  pose proof (back_loops_writes h prv delta (Layer.in_size a)) as Hloops.
  case_outcome. simpl in Hloops. pose proof (IH prv a0.2 a0.1) as Hrec.
  destruct (back_propogate fuel prv a0.2 a0.1); simpl in *; try done.
  eapply heap_rel_trans; [apply only_weights_trans | done | done].
Qed.

(** X4: the forward pass writes activations and nothing else.  Whenever
    [Layer::forward_propogate] or [CNN::forward_propogate] returns, the
    heap holds the same layers, each with the weights, biases, links and
    sizes it had and with as many activations as before. *)
Theorem forward_pass_writes_activations_only :
  (∀ fuel this h h',
      forward_propogate fuel this h = Ok h' → heap_rel only_values h h') ∧
  (∀ fuel (c : CNN.t) h h',
      CNN.forward_propogate fuel c h = Ok h' → heap_rel only_values h h').
Proof.
  split.
  - intros fuel this h h' Hrun.
    pose proof (forward_propogate_writes fuel this h) as Hw.
    by rewrite Hrun in Hw.
  - intros fuel c h h' Hrun. unfold CNN.forward_propogate in Hrun.
    destruct (CNN.head c) as [hd|]; [|done].
    pose proof (forward_propogate_writes fuel hd h) as Hw.
    by rewrite Hrun in Hw.
Qed.

(** X5: the backward pass writes weights and nothing else, and every
    weight matrix keeps its shape.  Whenever [Layer::back_propogate] or
    [CNN::back_propogate] returns, the heap holds the same layers, each
    with the activations, biases, links and sizes it had and with a
    weight matrix of as many rows, each as long as before. *)
Theorem backward_pass_writes_weights_only :
  (∀ fuel this delta h h',
      back_propogate fuel this delta h = Ok h' → heap_rel only_weights h h') ∧
  (∀ fuel (c : CNN.t) labels h h',
      CNN.back_propogate fuel c labels h = Ok h' →
      heap_rel only_weights h h').
Proof.
  split.
  - intros fuel this delta h h' Hrun.
    pose proof (back_propogate_writes fuel this delta h) as Hw.
    by rewrite Hrun in Hw.
  - intros fuel c labels h h' Hrun. unfold CNN.back_propogate in Hrun.
    destruct (CNN.tail c) as [tl|]; [|done].
    destruct (CNN.initial_delta tl labels h) as [delta| | |]; [|done..].
    simpl in Hrun.
    pose proof (back_propogate_writes fuel tl delta h) as Hw.
    by rewrite Hrun in Hw.
Qed.
End writes.

(** ** Passes that return *)

Section returning.
Context `{FloatOps}.
Implicit Types (h : heap) (l : Layer.t) (delta : vec_t).

Lemma forward_propogate_returns n fuel h p :
  shape_invariant h → biases_sized h → ends_within n h p → n ≤ fuel →
  ∃ h', forward_propogate fuel p h = Ok h'.
Proof.
  revert fuel h p. induction n as [|n IH]; intros fuel h p Hinv Hb Hend Hfuel;
    [done|].
  destruct fuel as [|fuel]; [lia|].
  pose proof Hend as (l & Hl & Hnext).
  destruct (Layer.next l) as [q|] eqn:Hq;
    [|exists h; by eapply forward_propogate_tail].
  assert (p ≠ q) as Hpq.
  { intros ->. by eapply (ends_within_no_self_loop (S n) h q l). }
  destruct (Hinv p l Hl) as [Hvs Hlinked].
  destruct (Hlinked q Hq) as (nl & Hnl & Hlink).
  destruct (Hinv q nl Hnl) as [Hnvs _].
  pose proof (Hb q nl Hnl) as Hnb.
  pose proof Hlink as (_ & _ & Hnv).
  destruct (forward_propogate_step fuel h p q l nl)
    as (vs & (Hlen & _) & _ & Hrec); try done; [lia|].
  rewrite Hrec.
  assert (heap_rel same_shape h (<[q := Layer.set_values nl vs]> h)) as Hrel.
  { eapply heap_rel_insert; [apply same_shape_refl | done |].
    apply only_values_same_shape. by exists vs. }
  apply IH; [| | |lia].
  - by eapply same_shape_shape_invariant.
  - by eapply same_shape_biases_sized.
  - by eapply same_shape_ends_within.
Qed.

Lemma back_propogate_returns n fuel h p l delta :
  shape_invariant h → back_linked h → begins_within n h p → n ≤ fuel →
  h !! p = Some l → Layer.in_size l ≤ length delta →
  ∃ h', back_propogate fuel p delta h = Ok h'.
Proof.
  revert fuel h p l delta.
  induction n as [|n IH]; intros fuel h p l delta Hinv Hbl Hbeg Hfuel Hl Hd;
    [done|].
  destruct fuel as [|fuel]; [lia|].
  destruct Hbeg as (l0 & Hl0 & Hprev).
  assert (l0 = l) as -> by congruence.
  destruct (Layer.prev l) as [prv|] eqn:Hq;
    [|exists h; by eapply back_propogate_head].
  destruct (Hbl p l prv Hl Hq) as (pl & Hpl & Hpn).
  destruct (Hinv prv pl Hpl) as [Hpvs Hplinked].
  destruct (Hplinked p Hpn) as (l1 & Hl1 & Hrows & Hcols & Hlv).
  assert (l1 = l) as -> by congruence.
  destruct (Hinv p l Hl) as [Hvs _].
  pose proof (back_loops_result h prv pl delta (Layer.in_size l)
                Hpl Hpvs Hd ltac:(lia) Hcols) as Hloops.
  rewrite (back_propogate_step fuel h p prv l delta _ Hl Hq Hloops).
  pose proof (back_loops_writes h prv delta (Layer.in_size l)) as Hrel.
  rewrite Hloops in Hrel. simpl in Hrel. simpl.
  apply (heap_rel_impl _ same_shape) in Hrel;
    [|apply only_weights_same_shape].
  eapply (IH fuel _ prv (Layer.set_weights pl _)); [| | |lia| |].
  - by eapply same_shape_shape_invariant.
  - by eapply same_shape_back_linked.
  - by eapply same_shape_begins_within.
  - apply lookup_insert_eq.
  - simpl. rewrite <- Hpvs at 1 2. rewrite length_final_delta; [lia..|].
    by rewrite Hpvs.
Qed.

(** X6: on a chain that ends, within a heap that satisfies the shape
    invariant and whose layers have as many biases as neurons, the
    forward pass returns when given fuel for the length of the chain: it
    meets no null or dangling pointer, no index out of range and no
    exception; the heap it returns satisfies the same conditions. *)
Theorem forward_pass_returns n fuel h p :
  shape_invariant h → biases_sized h → ends_within n h p → n ≤ fuel →
  ∃ h', forward_propogate fuel p h = Ok h' ∧
        shape_invariant h' ∧ biases_sized h' ∧ ends_within n h' p.
Proof.
  intros Hinv Hb Hend Hfuel.
  destruct (forward_propogate_returns n fuel h p) as [h' Hrun]; try done.
  exists h'. split; [done|].
  pose proof (forward_propogate_writes fuel p h) as Hrel.
  rewrite Hrun in Hrel. simpl in Hrel.
  apply (heap_rel_impl _ same_shape) in Hrel;
    [|apply only_values_same_shape].
  split_and!.
  - by eapply same_shape_shape_invariant.
  - by eapply same_shape_biases_sized.
  - by eapply same_shape_ends_within.
Qed.

(** X7: from a layer whose chain of predecessors ends, within a heap
    that satisfies the shape invariant and whose [prev] links mirror the
    [next] links, the backward pass returns for every delta that has an
    entry for each neuron of the layer, when given fuel for the length of
    the chain; the heap it returns satisfies the same conditions. *)
Theorem backward_pass_returns n fuel h p l delta :
  shape_invariant h → back_linked h → begins_within n h p → n ≤ fuel →
  h !! p = Some l → Layer.in_size l ≤ length delta →
  ∃ h', back_propogate fuel p delta h = Ok h' ∧
        shape_invariant h' ∧ back_linked h' ∧ begins_within n h' p.
Proof.
  intros Hinv Hbl Hbeg Hfuel Hl Hd.
  destruct (back_propogate_returns n fuel h p l delta) as [h' Hrun]; try done.
  exists h'. split; [done|].
  pose proof (back_propogate_writes fuel p delta h) as Hrel.
  rewrite Hrun in Hrel. simpl in Hrel.
  apply (heap_rel_impl _ same_shape) in Hrel;
    [|apply only_weights_same_shape].
  split_and!.
  - by eapply same_shape_shape_invariant.
  - by eapply same_shape_back_linked.
  - by eapply same_shape_begins_within.
Qed.
End returning.

(** ** Training *)

Section training.
Context `{FloatOps}.
Implicit Types (h : heap) (l : Layer.t) (c : CNN.t) (x y : vec_t).

Lemma trainable_same_shape n c h h' :
  heap_rel same_shape h h' → trainable n c h → trainable n c h'.
Proof.
  intros Hrel (Hinv & Hb & Hbl & hd & tl & Hhd & Htl & Hend & Hbeg).
  split_and!.
  - by eapply same_shape_shape_invariant.
  - by eapply same_shape_biases_sized.
  - by eapply same_shape_back_linked.
  - exists hd, tl. split_and!; try done.
    + by eapply same_shape_ends_within.
    + by eapply same_shape_begins_within.
Qed.

Lemma same_shape_heap_trans h1 h2 h3 :
  heap_rel same_shape h1 h2 → heap_rel same_shape h2 h3 →
  heap_rel same_shape h1 h3.
Proof. apply heap_rel_trans, same_shape_trans. Qed.

Lemma train_step_returns n fuel input tl c x y h l ltl :
  trainable n c h → n ≤ fuel →
  CNN.head c = Some input → CNN.tail c = Some tl →
  h !! input = Some l → h !! tl = Some ltl →
  length x = Layer.in_size l → Layer.in_size ltl ≤ length y →
  ∃ h', train_step fuel input c x y h = Ok h' ∧
        trainable n c h' ∧ heap_rel same_shape h h'.
Proof.
  intros Htr Hfuel Hhd Htl Hl Hltl Hx Hy.
  pose proof Htr as (Hinv & _).
  destruct (Hinv input l Hl) as [Hvs _].
  (* the input is stored *)
  set (h1 := <[input := Layer.set_values l x]> h).
  assert (heap_rel same_shape h h1) as Hrel1.
  { eapply heap_rel_insert; [apply same_shape_refl | done |].
    apply only_values_same_shape. exists x. split; [done | congruence]. }
  pose proof (trainable_same_shape n c h h1 Hrel1 Htr)
    as (Hinv1 & Hb1 & Hbl1 & hd & tl' & Hhd' & Htl' & Hend1 & Hbeg1).
  assert (hd = input) as -> by congruence.
  (* the forward pass *)
  destruct (forward_propogate_returns n fuel h1 input) as [h2 Hfwd];
    try done.
  pose proof (forward_propogate_writes fuel input h1) as Hrel2.
  rewrite Hfwd in Hrel2. simpl in Hrel2.
  apply (heap_rel_impl _ same_shape) in Hrel2;
    [|apply only_values_same_shape].
  pose proof (same_shape_heap_trans _ _ _ Hrel1 Hrel2) as Hrel12.
  pose proof (trainable_same_shape n c h h2 Hrel12 Htr)
    as (Hinv2 & Hb2 & Hbl2 & hd & tl'' & Hhd'' & Htl'' & Hend2 & Hbeg2).
  assert (tl'' = tl) as -> by congruence.
  (* the error signal of the tail, and the backward pass *)
  destruct (heap_rel_lookup _ _ _ _ _ Hrel12 Hltl)
    as (ltl2 & Hltl2 & _ & _ & Hin2 & _).
  destruct (Hinv2 tl ltl2 Hltl2) as [Hvs2 _].
  pose proof (initial_delta_result tl y h2 ltl2 Hltl2 Hvs2 ltac:(lia))
    as Hdelta.
  destruct (back_propogate_returns n fuel h2 tl ltl2
              (output_delta (Layer.values ltl2) y)) as [h3 Hback];
    try done.
  { unfold output_delta. rewrite length_zip_with. lia. }
  pose proof (back_propogate_writes fuel tl
                (output_delta (Layer.values ltl2) y) h2) as Hrel3.
  rewrite Hback in Hrel3. simpl in Hrel3.
  apply (heap_rel_impl _ same_shape) in Hrel3;
    [|apply only_weights_same_shape].
  pose proof (same_shape_heap_trans _ _ _ Hrel12 Hrel3) as Hrel.
  exists h3. split_and!; [|by eapply trainable_same_shape | done].
  unfold train_step. rewrite (load_Ok _ _ _ Hl). simpl. fold h1.
  unfold CNN.forward_propogate. rewrite Hhd, Hfwd. simpl.
  unfold CNN.back_propogate. by rewrite Htl, Hdelta.
Qed.

(** X8: training never leaves the well-formed networks.  For a
    trainable network, inputs as long as the head layer has neurons and
    labels at least as long as the tail layer has neurons, every
    iteration of the training loop of [main] (store the input, forward
    pass, backward pass) returns, and so does the whole loop; the heap
    it returns is trainable again, with layers of the same sizes, links
    and shapes. *)
Theorem training_returns n fuel input tl c (examples : list (vec_t * vec_t))
    h l ltl :
  trainable n c h → n ≤ fuel →
  CNN.head c = Some input → CNN.tail c = Some tl →
  h !! input = Some l → h !! tl = Some ltl →
  Forall (λ e, length e.1 = Layer.in_size l ∧
               Layer.in_size ltl ≤ length e.2) examples →
  ∃ h', train fuel input c examples h = Ok h' ∧
        trainable n c h' ∧ heap_rel same_shape h h'.
Proof.
  intros Htr Hfuel Hhd Htl Hl Hltl Hex. revert h l ltl Htr Hl Hltl Hex.
  induction examples as [|[x y] examples IH]; intros h l ltl Htr Hl Hltl Hex.
  - exists h. split_and!; [done | done |].
    apply heap_rel_refl, same_shape_refl.
  - inversion Hex as [|? ? [Hx Hy] Hex']; subst. simpl in Hx, Hy.
    destruct (train_step_returns n fuel input tl c x y h l ltl)
      as (h1 & Hstep & Htr1 & Hrel1); try done.
    destruct (heap_rel_lookup _ _ _ _ _ Hrel1 Hl)
      as (l1 & Hl1 & _ & _ & Hin1 & _).
    destruct (heap_rel_lookup _ _ _ _ _ Hrel1 Hltl)
      as (ltl1 & Hltl1 & _ & _ & Hin1' & _).
    destruct (IH h1 l1 ltl1) as (h' & Hrun & Htr' & Hrel'); try done.
    { rewrite Hin1, Hin1'. done. }
    exists h'. split_and!; [|done|by eapply same_shape_heap_trans].
    simpl. by rewrite Hstep.
Qed.
End training.

(** ** Drawing the weights *)

Lemma insert_app_drop {A} (done_ base : list A) k x :
  length done_ = k → k < length base →
  <[k := x]> (done_ ++ drop k base) = (done_ ++ [x]) ++ drop (S k) base.
Proof.
  intros Hlen Hk. destruct (lookup_lt_is_Some_2 base k Hk) as [y Hy].
  rewrite insert_app_r_alt by lia. rewrite Hlen, Nat.sub_diag.
  rewrite (drop_S _ _ _ Hy). simpl. by rewrite <- app_assoc.
Qed.

Lemma lookup_app_drop {A} (done_ base : list A) k :
  length done_ = k → (done_ ++ drop k base) !! k = base !! k.
Proof.
  intros Hlen. rewrite lookup_app_r by lia. rewrite Hlen, Nat.sub_diag.
  rewrite lookup_drop. f_equal. lia.
Qed.

Lemma length_resize {A} n (d : A) (v : list A) : length (resize n d v) = n.
Proof.
  unfold resize. rewrite length_app, length_take, length_replicate. lia.
Qed.

Section drawing.
Context `{FloatOps} `{!RandomOps}.
Implicit Types (g : mt19937) (ws : list vec_t) (h : heap) (l : Layer.t).

Lemma draw_row_S n g :
  draw_row (S n) g
  = ((dis g).1 :: (draw_row n (dis g).2).1, (draw_row n (dis g).2).2).
Proof. simpl. destruct (dis g) as [r g']. simpl. by destruct (draw_row n g'). Qed.

Lemma draw_row_snoc n g :
  draw_row (S n) g
  = ((draw_row n g).1 ++ [(dis (draw_row n g).2).1],
     (dis (draw_row n g).2).2).
Proof.
  revert g. induction n as [|n IH]; intros g.
  - simpl. by destruct (dis g).
  - rewrite draw_row_S, IH, draw_row_S. done.
Qed.

Lemma length_draw_row n g : length (draw_row n g).1 = n.
Proof.
  revert g. induction n as [|n IH]; intros g; [done|].
  rewrite draw_row_S. simpl. by rewrite IH.
Qed.

Lemma draw_rows_S m n g :
  draw_rows (S m) n g
  = ((draw_row n g).1 :: (draw_rows m n (draw_row n g).2).1,
     (draw_rows m n (draw_row n g).2).2).
Proof.
  simpl. destruct (draw_row n g) as [row g']. simpl.
  by destruct (draw_rows m n g').
Qed.

Lemma draw_rows_snoc m n g :
  draw_rows (S m) n g
  = ((draw_rows m n g).1 ++ [(draw_row n (draw_rows m n g).2).1],
     (draw_row n (draw_rows m n g).2).2).
Proof.
  revert g. induction m as [|m IH]; intros g.
  - simpl. by destruct (draw_row n g).
  - rewrite draw_rows_S, IH, draw_rows_S. done.
Qed.

Lemma length_draw_rows m n g : length (draw_rows m n g).1 = m.
Proof.
  revert g. induction m as [|m IH]; intros g; [done|].
  rewrite draw_rows_S. simpl. by rewrite IH.
Qed.

Lemma draw_rows_columns m n g :
  Forall (λ w : vec_t, length w = n) (draw_rows m n g).1.
Proof.
  revert g. induction m as [|m IH]; intros g; [by constructor|].
  rewrite draw_rows_S. simpl. constructor; [apply length_draw_row | apply IH].
Qed.

(** The inner loop fills row [i] with [n] draws. *)
Lemma init_inner_loop ws i (base : vec_t) n g :
  ws !! i = Some base → length base = n →
  for_loop n (init_inner_body i) (ws, g)
  = Ok (<[i := (draw_row n g).1]> ws, (draw_row n g).2).
Proof.
  intros Hbase Hlen.
  assert (i < length ws) as Hi by (by eapply lookup_lt_Some).
  destruct (for_loop_inv
    (λ k (s : list vec_t * mt19937),
       k ≤ n →
       s = (<[i := (draw_row k g).1 ++ drop k base]> ws, (draw_row k g).2))
    n (init_inner_body i) (ws, g)) as (s & Hloop & Hs).
  - intros _. simpl. by rewrite drop_0, (list_insert_id _ _ _ Hbase).
  - intros k s Hk Hs. specialize (Hs ltac:(lia)). subst s.
    eexists. split; [|intros _; reflexivity].
    rewrite draw_row_snoc. unfold init_inner_body.
    destruct (dis (draw_row k g).2) as [r g'] eqn:Hdis.
    rewrite (vget_Ok _ _ ((draw_row k g).1 ++ drop k base))
      by (by apply list_lookup_insert_eq).
    cbn [mbind outcome_bind]. rewrite vset_Ok
      by (rewrite length_app, length_draw_row, length_drop; lia).
    cbn [mbind outcome_bind]. rewrite vset_Ok by (by rewrite length_insert).
    cbn [mbind outcome_bind fst snd]. rewrite list_insert_insert_eq.
    by rewrite insert_app_drop by (apply length_draw_row || lia).
  - rewrite Hloop, (Hs ltac:(lia)). rewrite drop_ge by lia.
    by rewrite app_nil_r.
Qed.

(** The outer loop fills the rows [0..m-1], one after the other. *)
Lemma init_outer_loop ws m n g :
  length ws = m →
  for_loop m (init_outer_body n) (ws, g)
  = Ok ((draw_rows m n g).1, (draw_rows m n g).2).
Proof.
  intros Hlen.
  destruct (for_loop_inv
    (λ k (s : list vec_t * mt19937),
       k ≤ m →
       s = ((draw_rows k n g).1 ++ drop k ws, (draw_rows k n g).2))
    m (init_outer_body n) (ws, g)) as (s & Hloop & Hs).
  - intros _. simpl. by rewrite drop_0.
  - intros k s Hk Hs. specialize (Hs ltac:(lia)). subst s.
    eexists. split; [|intros _; reflexivity].
    destruct (lookup_lt_is_Some_2 ws k) as [w Hw]; [lia|].
    rewrite draw_rows_snoc. unfold init_outer_body. cbn [fst snd].
    rewrite (vget_Ok _ _ w)
      by (by rewrite lookup_app_drop by apply length_draw_rows).
    cbn [mbind outcome_bind]. rewrite vset_Ok
      by (rewrite length_app, length_draw_rows, length_drop; lia).
    cbn [mbind outcome_bind].
    rewrite (init_inner_loop _ k (resize n f_zero w) n); cycle 1.
    { apply list_lookup_insert_eq.
      rewrite length_app, length_draw_rows, length_drop. lia. }
    { apply length_resize. }
    rewrite list_insert_insert_eq.
    by rewrite insert_app_drop by (apply length_draw_rows || lia).
  - rewrite Hloop, (Hs ltac:(lia)). rewrite drop_ge by lia.
    by rewrite app_nil_r.
Qed.

Lemma init_weights_result this h rd l :
  h !! this = Some l → is_Some (Layer.next l) →
  init_weights this (h, rd)
  = Ok (<[this := Layer.set_weights l
                    (draw_rows (Layer.out_size l) (Layer.in_size l)
                       (seed_gen rd).1).1]> h,
        (seed_gen rd).2).
Proof.
  intros Hl [q Hq]. unfold init_weights. rewrite (load_Ok _ _ _ Hl). simpl.
  rewrite Hq. destruct (seed_gen rd) as [gen rd']. simpl.
  by rewrite init_outer_loop by apply length_resize.
Qed.

End drawing.

(** ** Initialising a network *)

Section initialising.
Context `{FloatOps} `{!RandomOps}.
Implicit Types (h : heap) (l : Layer.t) (ps : list ptr).

Lemma reinitialised_refl l : reinitialised l l.
Proof. split; [apply only_weights_any_refl | done]. Qed.

Lemma reinitialised_trans l1 l2 l3 :
  reinitialised l1 l2 → reinitialised l2 l3 → reinitialised l1 l3.
Proof.
  intros [H12 S12] [H23 S23].
  split; [by eapply only_weights_any_trans | auto].
Qed.

Lemma init_weights_reinitialises this h rd l :
  h !! this = Some l →
  ∃ h' rd', init_weights this (h, rd) = Ok (h', rd') ∧
    heap_rel reinitialised h h' ∧
    ∃ l', h' !! this = Some l' ∧ shaped l'.
Proof.
  intros Hl. destruct (Layer.next l) as [q|] eqn:Hq.
  - eexists _, _. split; [by apply init_weights_result|].
    assert (shaped (Layer.set_weights l
              (draw_rows (Layer.out_size l) (Layer.in_size l)
                 (seed_gen rd).1).1)) as Hshaped.
    { intros _. simpl. split; [apply length_draw_rows|].
      apply draw_rows_columns. }
    split.
    + eapply heap_rel_insert; [apply reinitialised_refl | done |].
      split; [by eexists | done].
    + eexists. by rewrite lookup_insert_eq.
  - exists h, rd. split_and!.
    + unfold init_weights. rewrite (load_Ok _ _ _ Hl). simpl. by rewrite Hq.
    + apply heap_rel_refl, reinitialised_refl.
    + exists l. split; [done|]. intros [? Hsome]. congruence.
Qed.

(** [init] on live layers returns, and leaves each of them shaped. *)
Lemma init_layers_shapes ps h rd :
  (∀ p, p ∈ ps → is_Some (h !! p)) →
  ∃ h' rd', CNN.init_layers (Some <$> ps) (h, rd) = Ok (h', rd') ∧
    heap_rel reinitialised h h' ∧
    ∀ p, p ∈ ps → ∃ l', h' !! p = Some l' ∧ shaped l'.
Proof.
  revert h rd. induction ps as [|p ps IH]; intros h rd Hlive.
  - exists h, rd. split_and!; [done | |].
    + apply heap_rel_refl, reinitialised_refl.
    + intros p Hp. by apply elem_of_nil in Hp.
  - destruct (Hlive p) as [l Hl]; [by left|].
    destruct (init_weights_reinitialises p h rd l Hl)
      as (h1 & rd1 & Hinit & Hrel1 & l1 & Hl1 & Hshaped1).
    destruct (IH h1 rd1) as (h' & rd' & Hrest & Hrel & Hall).
    { intros q Hq. destruct (Hlive q) as [lq Hlq]; [by right|].
      destruct (heap_rel_lookup _ _ _ _ _ Hrel1 Hlq) as (lq' & ? & _). eauto. }
    exists h', rd'. split_and!.
    + rewrite fmap_cons. cbn [CNN.init_layers]. rewrite Hinit. exact Hrest.
    + eapply heap_rel_trans; [apply reinitialised_trans | done | done].
    + intros q Hq. apply elem_of_cons in Hq as [->|Hq]; [|by apply Hall].
      destruct (heap_rel_lookup _ _ _ _ _ Hrel Hl1) as (l' & Hl' & _ & Hkeep).
      exists l'. split; [done | by apply Hkeep].
Qed.
End initialising.

(** ** The links that [add] writes *)

Section adding.
Context `{FloatOps}.
Implicit Types (h : heap) (l : Layer.t) (ps : list ptr).

Lemma chained_alone p l : chained [p] 0 l = l.
Proof. by destruct l. Qed.

(** Appending a layer [x] to layers that have their links already. *)
Lemma add_exact ps x h0 h :
  NoDup (ps ++ [x]) →
  (∀ p, p ∈ ps ++ [x] → is_Some (h0 !! p)) →
  (∀ p, p ∉ ps → h !! p = h0 !! p) →
  (∀ i p l, ps !! i = Some p → h0 !! p = Some l →
            h !! p = Some (chained ps i l)) →
  ∃ h', CNN.add (Some x) (CNN.mk (Some <$> ps), h)
        = Ok (CNN.mk (Some <$> (ps ++ [x])), h') ∧
    (∀ p, p ∉ ps ++ [x] → h' !! p = h0 !! p) ∧
    (∀ i p l, (ps ++ [x]) !! i = Some p → h0 !! p = Some l →
              h' !! p = Some (chained (ps ++ [x]) i l)).
Proof.
  intros Hnd Hlive Hout Hin. apply NoDup_app in Hnd as (Hnd & Hfresh & _).
  assert (x ∉ ps) as Hxps.
  { intros Hx. apply (Hfresh x Hx). by apply list_elem_of_singleton. }
  destruct (Hlive x) as [lx Hlx].
  { apply elem_of_app. right. by apply list_elem_of_singleton. }
  assert (h !! x = Some lx) as Hx by (by rewrite Hout).
  unfold CNN.add. rewrite tail_fmap_Some, fmap_app. simpl.
  destruct (last ps) as [t|] eqn:Hlast.
  - rewrite last_lookup in Hlast.
    assert (0 < length ps) as Hn by (apply lookup_lt_Some in Hlast; lia).
    destruct (Hlive t) as [lt Hlt].
    { apply elem_of_app. left. by eapply list_elem_of_lookup_2. }
    pose proof (Hin _ _ _ Hlast Hlt) as Ht.
    assert (t ≠ x) as Htx.
    { intros ->. apply Hxps. by eapply list_elem_of_lookup_2. }
    rewrite (add_tail_result t x h _ lx Ht) by (by rewrite lookup_insert_ne).
    simpl. eexists. split; [done|]. split.
    + intros p Hp. apply not_elem_of_app in Hp as [Hp Hpx].
      rewrite list_elem_of_singleton in Hpx.
      rewrite !lookup_insert_ne; [by apply Hout | |congruence].
      intros ->. apply Hp. by eapply list_elem_of_lookup_2.
    + intros i p l Hi Hl. apply lookup_snoc_Some in Hi as [[Hi Hp]|[-> <-]].
      * assert (p ≠ x) as Hpx.
        { intros ->. apply Hxps. by eapply list_elem_of_lookup_2. }
        rewrite lookup_insert_ne by done.
        pose proof (Hin _ _ _ Hp Hl) as Hpl.
        destruct (decide (t = p)) as [->|Htp].
        -- assert (i = Init.Nat.pred (length ps)) as ->
             by (by eapply NoDup_lookup).
           assert (l = lt) as -> by congruence.
           rewrite lookup_insert_eq. f_equal. unfold chained.
           replace (S (Init.Nat.pred (length ps))) with (length ps) by lia.
           rewrite lookup_app_r, Nat.sub_diag by lia. simpl.
           rewrite (lookup_ge_None_2 ps (length ps)) by lia.
           destruct (Init.Nat.pred (length ps)) as [|k] eqn:Hk; [done|].
           by rewrite lookup_app_l by lia.
        -- rewrite lookup_insert_ne by done. rewrite Hpl. f_equal.
           assert (S i < length ps) as HSi.
           { destruct (decide (S i < length ps)) as [|Hge]; [done|].
             exfalso. apply Htp.
             assert (i = Init.Nat.pred (length ps)) as -> by lia.
             congruence. }
           unfold chained. rewrite (lookup_app_l ps [x] (S i)) by lia.
           destruct i as [|k]; [done|]. by rewrite lookup_app_l by lia.
      * assert (l = lx) as -> by congruence.
        rewrite lookup_insert_eq. f_equal. unfold chained.
        rewrite (lookup_ge_None_2 (ps ++ [x]) (S (length ps)))
          by (rewrite length_app; simpl; lia).
        destruct (length ps) as [|k] eqn:Hk; [lia|].
        rewrite lookup_app_l by lia. simpl in Hlast. rewrite Hlast.
        by destruct lx.
  - assert (ps = []) as ->.
    { destruct ps as [|p ps] using rev_ind; [done|].
      by rewrite last_snoc in Hlast. }
    simpl. exists h. split; [done|]. split.
    + intros p Hp. apply Hout. apply not_elem_of_nil.
    + intros i p l Hi Hl. apply list_lookup_singleton_Some in Hi as [-> ->].
      rewrite chained_alone. congruence.
Qed.

Lemma add_all_exact ps h :
  NoDup ps → (∀ p, p ∈ ps → is_Some (h !! p)) →
  ∃ h', CNN.add_all (Some <$> ps) (CNN.mk [], h)
        = Ok (CNN.mk (Some <$> ps), h') ∧
    (∀ p, p ∉ ps → h' !! p = h !! p) ∧
    (∀ i p l, ps !! i = Some p → h !! p = Some l →
              h' !! p = Some (chained ps i l)).
Proof.
  induction ps as [|x ps IH] using rev_ind; intros Hnd Hlive.
  - exists h. split_and!; [done | done |]. intros i p l Hi. done.
  - destruct IH as (h1 & Hadd & Hout & Hin).
    { by apply NoDup_app in Hnd as (? & _ & _). }
    { intros p Hp. apply Hlive, elem_of_app. by left. }
    destruct (add_exact ps x h h1 Hnd Hlive Hout Hin)
      as (h2 & Hadd2 & Hout2 & Hin2).
    exists h2. split_and!; [|done|done].
    rewrite fmap_app. change (Some <$> [x]) with [Some x].
    rewrite add_all_snoc, Hadd. rewrite fmap_app in Hadd2. exact Hadd2.
Qed.

(** X10: the calls of [add] for distinct live layers on the empty
    network return and write links only, and exactly those of the
    chain: layer [i] ends up with the layer before it as [prev] (its own
    [prev] if it is the first) and the layer after it as [next] (its own
    [next] if it is the last); its activations, biases, weights and
    sizes, and every layer that is not added, are as they were. *)
Theorem add_writes_the_links_only ps h :
  NoDup ps → (∀ p, p ∈ ps → is_Some (h !! p)) →
  ∃ h', CNN.add_all (Some <$> ps) (CNN.mk [], h)
        = Ok (CNN.mk (Some <$> ps), h') ∧
    (∀ p, p ∉ ps → h' !! p = h !! p) ∧
    (∀ i p l, ps !! i = Some p → h !! p = Some l →
       ∃ l', h' !! p = Some l' ∧
         Layer.prev l' = match i with 0 => Layer.prev l | S k => ps !! k end ∧
         Layer.next l' = match ps !! S i with
                         | Some q => Some q
                         | None => Layer.next l
                         end ∧
         Layer.values l' = Layer.values l ∧
         Layer.biases l' = Layer.biases l ∧
         Layer.weights l' = Layer.weights l ∧
         Layer.in_size l' = Layer.in_size l ∧
         Layer.out_size l' = Layer.out_size l).
Proof.
  intros Hnd Hlive.
  destruct (add_all_exact ps h Hnd Hlive) as (h' & Hadd & Hout & Hin).
  exists h'. split_and!; [done | done |].
  intros i p l Hi Hl. exists (chained ps i l).
  split; [by apply Hin|]. done.
Qed.
End adding.

(** ** From construction to training *)

Section construction.
Context `{FloatOps} `{!RandomOps}.
Implicit Types (h : heap) (l : Layer.t) (ps : list ptr).

Lemma chain_ends ps h :
  (∀ i p, ps !! i = Some p →
     ∃ l, h !! p = Some l ∧ Layer.next l = ps !! S i) →
  ∀ d i p, length ps - i = d → ps !! i = Some p → ends_within d h p.
Proof.
  intros Hnext. induction d as [|d IH]; intros i p Hd Hp.
  - apply lookup_lt_Some in Hp. lia.
  - destruct (Hnext i p Hp) as (l & Hl & Hn). exists l. split; [done|].
    rewrite Hn. destruct (ps !! S i) as [q|] eqn:Hq; [|done].
    apply (IH (S i)); [lia | done].
Qed.

Lemma chain_begins ps h :
  (∀ i p, ps !! i = Some p →
     ∃ l, h !! p = Some l ∧
          Layer.prev l = match i with 0 => None | S k => ps !! k end) →
  ∀ i p, ps !! i = Some p → begins_within (S i) h p.
Proof.
  intros Hprev. induction i as [|i IH]; intros p Hp;
    destruct (Hprev _ p Hp) as (l & Hl & Hpl); exists l; (split; [done|]);
    rewrite Hpl; [done|].
  destruct (ps !! i) as [q|] eqn:Hq; [by apply IH | done].
Qed.

(** X11: what [main] does before it trains establishes what training
    needs.  Take distinct layers as their constructor leaves them, each
    with an [out_size] equal to the [in_size] of the layer after it, in
    a heap that holds no other layer: the calls of [add] followed by
    [init] return, and the network is trainable. *)
Theorem construction_is_trainable ps h rd :
  ps ≠ [] → NoDup ps →
  (∀ p, is_Some (h !! p) → p ∈ ps) →
  (∀ i p, ps !! i = Some p →
     ∃ n m ws bs, h !! p = Some (Layer.new n m ws bs) ∧
       ∀ q lq, ps !! S i = Some q → h !! q = Some lq →
               Layer.in_size lq = m) →
  ∃ c h1 s2,
    CNN.add_all (Some <$> ps) (CNN.mk [], h) = Ok (c, h1) ∧
    CNN.init c (h1, rd) = Ok s2 ∧
    trainable (length ps) c s2.1.
Proof.
  intros Hne Hnd Hdom Hnew.
  assert (∀ p, p ∈ ps → is_Some (h !! p)) as Hlive.
  { intros p Hp. apply list_elem_of_lookup_1 in Hp as [i Hi].
    destruct (Hnew i p Hi) as (n & m & ws & bs & Hl & _). eauto. }
  destruct (add_all_exact ps h Hnd Hlive) as (h1 & Hadd & Hout & Hin).
  assert (∀ p, p ∈ ps → is_Some (h1 !! p)) as Hlive1.
  { intros p Hp. destruct (Hlive p Hp) as [l Hl].
    apply list_elem_of_lookup_1 in Hp as [i Hi].
    rewrite (Hin i p l Hi Hl). eauto. }
  destruct (init_layers_shapes ps h1 rd Hlive1)
    as (h2 & rd2 & Hinit & Hrel & Hshaped).
  exists (CNN.mk (Some <$> ps)), h1, (h2, rd2).
  split; [done|]. split; [done|]. simpl.
  (* every layer of the final heap, read back *)
  assert (∀ i p, ps !! i = Some p →
    ∃ n m ws bs l2,
      h !! p = Some (Layer.new n m ws bs) ∧ h2 !! p = Some l2 ∧
      only_weights_any (chained ps i (Layer.new n m ws bs)) l2 ∧
      shaped l2) as Hread.
  { intros i p Hi. destruct (Hnew i p Hi) as (n & m & ws & bs & Hl & _).
    pose proof (Hin i p _ Hi Hl) as Hl1.
    destruct (heap_rel_lookup _ _ _ _ _ Hrel Hl1) as (l2 & Hl2 & Hw & _).
    destruct (Hshaped p) as (l2' & Hl2' & Hs);
      [by eapply list_elem_of_lookup_2|].
    assert (l2' = l2) as -> by congruence.
    by exists n, m, ws, bs, l2. }
  assert (∀ p l2, h2 !! p = Some l2 → ∃ i, ps !! i = Some p) as Hindex.
  { intros p l2 Hl2.
    destruct (heap_rel_lookup_inv _ _ _ _ _ Hrel Hl2) as (l1 & Hl1 & _).
    apply list_elem_of_lookup_1, Hdom.
    destruct (decide (p ∈ ps)) as [Hp|Hp]; [by apply Hlive|].
    rewrite <- (Hout p Hp). eauto. }
  assert (∀ n, length (resize n f_zero ([] : vec_t)) = n) as Hzeros
    by (intros; apply length_resize_nil).
  split_and!.
  - (* the shape invariant *)
    intros p l2 Hl2. destruct (Hindex p l2 Hl2) as [i Hi].
    destruct (Hread i p Hi) as (n & m & ws & bs & l2' & Hl & Hl2' & [W ->] & Hs).
    assert (l2 = Layer.set_weights (chained ps i (Layer.new n m ws bs)) W)
      as -> by congruence.
    split; [apply Hzeros|].
    intros q Hq. simpl in Hq.
    destruct (ps !! S i) as [q'|] eqn:Hq'; [|done]. injection Hq as ->.
    destruct (Hread (S i) q Hq')
      as (n' & m' & ws' & bs' & nl & Hlq & Hnl & [W' ->] & _).
    eexists. split; [done|].
    destruct Hs as [Hrows Hcols]; [simpl; rewrite Hq'; eauto|].
    split_and!; [done | done |]. simpl. rewrite Hzeros.
    destruct (Hnew i p Hi) as (n0 & m0 & ws0 & bs0 & Hl0 & Hsize).
    assert (Some (Layer.new n0 m0 ws0 bs0) = Some (Layer.new n m ws bs))
      as Heq by congruence.
    apply (f_equal (fmap Layer.out_size)) in Heq. simpl in Heq.
    injection Heq as ->. exact (Hsize q _ Hq' Hlq).
  - (* as many biases as neurons *)
    intros p l2 Hl2. destruct (Hindex p l2 Hl2) as [i Hi].
    destruct (Hread i p Hi) as (n & m & ws & bs & l2' & Hl & Hl2' & [W ->] & _).
    assert (l2 = Layer.set_weights (chained ps i (Layer.new n m ws bs)) W)
      as -> by congruence.
    apply Hzeros.
  - (* prev mirrors next *)
    intros p l2 q Hl2 Hq. destruct (Hindex p l2 Hl2) as [i Hi].
    destruct (Hread i p Hi) as (n & m & ws & bs & l2' & Hl & Hl2' & [W ->] & _).
    assert (l2 = Layer.set_weights (chained ps i (Layer.new n m ws bs)) W)
      as -> by congruence.
    simpl in Hq. destruct i as [|k]; [done|].
    destruct (Hread k q Hq)
      as (n' & m' & ws' & bs' & pl & _ & Hpl & [W' ->] & _).
    eexists. split; [done|]. simpl. by rewrite Hi.
  - (* the two ends, and the chain between them *)
    destruct ps as [|hd rest] eqn:Hps; [done|]. rewrite <- Hps in *.
    assert (ps !! 0 = Some hd) as Hhd by (by rewrite Hps).
    destruct (last ps) as [tl|] eqn:Htl; cycle 1.
    { rewrite last_lookup in Htl. apply lookup_ge_None in Htl.
      rewrite Hps in Htl. simpl in Htl. lia. }
    exists hd, tl. rewrite head_fmap_Some, tail_fmap_Some.
    split_and!; [by rewrite Hps | done | |].
    + apply (chain_ends ps h2) with (i := 0); [|lia|done].
      intros i p Hi.
      destruct (Hread i p Hi)
        as (n & m & ws & bs & l2 & _ & Hl2 & [W ->] & _).
      eexists. split; [done|]. simpl. by destruct (ps !! S i).
    + rewrite last_lookup in Htl.
      apply (begins_within_mono (S (Init.Nat.pred (length ps))));
        [apply lookup_lt_Some in Htl; lia|].
      apply (chain_begins ps h2); [|done].
      intros i p Hi.
      destruct (Hread i p Hi)
        as (n & m & ws & bs & l2 & _ & Hl2 & [W ->] & _).
      eexists. split; [done|]. simpl. by destruct i.
Qed.
End construction.

(** ** Edges of the network's methods *)

Section edges.
Context `{FloatOps}.
Implicit Types (h : heap) (l : Layer.t) (labels : vec_t).

Lemma for_loop_undefined_from {S} (P : S → Prop) n k
    (body : nat → S → outcome S) s :
  k < n → P s →
  (∀ i s, i < k → P s → ∃ s', body i s = Ok s' ∧ P s') →
  (∀ s, P s → body k s = Undefined) →
  for_loop n body s = Undefined.
Proof.
  intros Hk Hs Hbefore Hat.
  destruct (for_loop_inv (λ _, P) k body s) as (s1 & Hs1 & HP); [done | |].
  { intros i s0 Hi HP. by apply Hbefore. }
  unfold for_loop in *.
  replace n with (k + Datatypes.S (n - Datatypes.S k)) by lia.
  rewrite seq_app, for_each_app, Hs1. simpl. by rewrite Hat.
Qed.

(** X12: [CNN::back_propogate] with fewer labels than the tail layer has
    neurons reads [labels] out of range: the call is undefined, whatever
    the rest of the network is. *)
Theorem short_labels_are_read_out_of_range fuel (c : CNN.t) h tl l labels :
  CNN.tail c = Some tl → h !! tl = Some l →
  length (Layer.values l) = Layer.in_size l →
  length labels < Layer.in_size l →
  CNN.back_propogate fuel c labels h = Undefined.
Proof.
  intros Htl Hl Hvs Hshort. unfold CNN.back_propogate. rewrite Htl.
  unfold CNN.initial_delta. rewrite (load_Ok _ _ _ Hl). simpl.
  rewrite (for_loop_undefined_from
             (λ d : vec_t, length d = Layer.in_size l)
             _ (length labels)); [done | lia | apply length_resize_nil | |].
  - intros i d Hi Hd.
    destruct (lookup_lt_is_Some_2 (Layer.values l) i) as [v Hv]; [lia|].
    destruct (lookup_lt_is_Some_2 labels i) as [y Hy]; [lia|].
    eexists. unfold CNN.delta_body. rewrite (load_Ok _ _ _ Hl). simpl.
    rewrite (vget_Ok _ _ _ Hv). simpl. rewrite (vget_Ok _ _ _ Hy). simpl.
    rewrite vset_Ok by lia. split; [done|]. by rewrite length_insert.
  - intros d Hd.
    destruct (lookup_lt_is_Some_2 (Layer.values l) (length labels))
      as [v Hv]; [lia|].
    unfold CNN.delta_body. rewrite (load_Ok _ _ _ Hl). simpl.
    rewrite (vget_Ok _ _ _ Hv). simpl. unfold vget.
    by rewrite lookup_ge_None_2.
Qed.
End edges.

(** ** The labels of [main] *)

(** X13: the label that [main] computes from two integers is set exactly
    when both are even; for two bits it is their NOR. *)
Theorem nor_label_is_nor (a b : Z) :
  (nor_label a b = true ↔ Z.even a = true ∧ Z.even b = true) ∧
  nor_label 0 0 = true ∧ nor_label 0 1 = false ∧
  nor_label 1 0 = false ∧ nor_label 1 1 = false.
Proof.
  split; [|done]. unfold nor_label.
  assert (Z.land (Z.lnot (Z.lor a b)) 1
          = if Z.even a && Z.even b then 1 else 0)%Z as ->.
  { apply Z.bits_inj'. intros n Hn.
    rewrite Z.land_spec.
    destruct (decide (n = 0%Z)) as [->|Hn0].
    - rewrite Z.lnot_spec, Z.lor_spec, !Z.bit0_odd by lia.
      rewrite <- !Z.negb_even.
      destruct (Z.even a), (Z.even b); reflexivity.
    - replace (Z.testbit 1 n) with false; cycle 1.
      { symmetry. apply (Z.bits_above_log2 1 n); simpl; lia. }
      rewrite andb_false_r.
      destruct (Z.even a && Z.even b); symmetry.
      + apply (Z.bits_above_log2 1 n); simpl; lia.
      + apply Z.bits_0. }
  destruct (Z.even a), (Z.even b); simpl; intuition (done || discriminate).
Qed.

(** ** Running the forward pass again *)

Section again.
Context `{FloatOps}.
Implicit Types (h : heap) (l nl : Layer.t) (ps : list ptr).

(** The activations the loop leaves are determined by the two layers. *)
Lemma forwarded_unique l nl vs vs' k :
  k = length (Layer.values nl) →
  forwarded l nl k vs → forwarded l (Layer.set_values nl vs) k vs' →
  vs' = vs.
Proof.
  intros -> (Hlen & Hdone & _) (Hlen' & Hdone' & _). simpl in *.
  apply list_eq. intros i.
  destruct (decide (i < length (Layer.values nl))) as [Hi|Hi].
  - destruct (Hdone i Hi) as (w & b & Hw & Hb & ->).
    destruct (Hdone' i Hi) as (w' & b' & Hw' & Hb' & ->).
    congruence.
  - by rewrite !lookup_ge_None_2 by lia.
Qed.

Lemma path_insert_values ps h q nl vs :
  path ps h → h !! q = Some nl →
  path ps (<[q := Layer.set_values nl vs]> h).
Proof.
  intros Hpath Hq i p Hp. destruct (Hpath i p Hp) as (l & Hl & Hn).
  destruct (decide (q = p)) as [->|Hne].
  - rewrite lookup_insert_eq. eexists. split; [done|].
    assert (l = nl) as -> by congruence. done.
  - rewrite lookup_insert_ne by done. eauto.
Qed.

(** The pass from the [i]-th layer of a path returns, writes only to the
    layers after it, and returns the same heap when run again. *)
Lemma forward_propogate_again ps h :
  NoDup ps →
  ∀ d i p fuel, length ps - i = d → d ≤ fuel →
    path ps h → shape_invariant h → biases_sized h →
    ps !! i = Some p →
    ∃ h', forward_propogate fuel p h = Ok h' ∧
          (∀ r, r ∉ drop (S i) ps → h' !! r = h !! r) ∧
          forward_propogate fuel p h' = Ok h'.
Proof.
  intros Hnd. intros d. revert h.
  induction d as [|d IH]; intros h i p fuel Hd Hfuel Hpath Hinv Hb Hp.
  { apply lookup_lt_Some in Hp. lia. }
  destruct fuel as [|fuel]; [lia|].
  destruct (Hpath i p Hp) as (l & Hl & Hnext).
  destruct (ps !! S i) as [q|] eqn:Hq; cycle 1.
  { exists h. split_and!; [|done|]; by eapply forward_propogate_tail. }
  assert (p ≠ q) as Hpq.
  { intros ->. pose proof (NoDup_lookup _ _ _ _ Hnd Hp Hq). lia. }
  destruct (Hinv p l Hl) as [Hvs Hlinked].
  destruct (Hlinked q Hnext) as (nl & Hnl & Hlink).
  destruct (Hinv q nl Hnl) as [Hnvs _].
  pose proof (Hb q nl Hnl) as Hnb.
  pose proof Hlink as (_ & _ & Hnv).
  destruct (forward_propogate_step fuel h p q l nl)
    as (vs & Hfwd & _ & Hrec); try done; [lia|].
  pose proof Hfwd as (Hlen & _).
  set (h1 := <[q := Layer.set_values nl vs]> h) in *.
  assert (heap_rel same_shape h h1) as Hrel.
  { eapply heap_rel_insert; [apply same_shape_refl | done |].
    apply only_values_same_shape. by exists vs. }
  destruct (IH h1 (S i) q fuel) as (h' & Hrun & Hout & Hagain);
    [lia | lia | by apply path_insert_values
    | by eapply same_shape_shape_invariant
    | by eapply same_shape_biases_sized | done |].
  assert (q ∉ drop (S (S i)) ps) as Hqout.
  { intros Hin. apply list_elem_of_lookup_1 in Hin as [j Hj].
    rewrite lookup_drop in Hj.
    pose proof (NoDup_lookup _ _ _ _ Hnd Hq Hj). lia. }
  assert (p ∉ drop (S (S i)) ps) as Hpout.
  { intros Hin. apply list_elem_of_lookup_1 in Hin as [j Hj].
    rewrite lookup_drop in Hj.
    pose proof (NoDup_lookup _ _ _ _ Hnd Hp Hj). lia. }
  assert (h' !! q = Some (Layer.set_values nl vs)) as Hq'.
  { rewrite (Hout q Hqout). apply lookup_insert_eq. }
  assert (h' !! p = Some l) as Hp'.
  { rewrite (Hout p Hpout). unfold h1. by rewrite lookup_insert_ne. }
  exists h'. split_and!.
  - by rewrite Hrec.
  - intros r Hr. rewrite (drop_S _ q) in Hr by done.
    apply not_elem_of_cons in Hr as [Hrq Hr].
    rewrite (Hout r Hr). unfold h1. by rewrite lookup_insert_ne.
  - assert (linked l (Layer.set_values nl vs)) as Hlink'.
    { destruct Hlink as (? & ? & ?). split_and!; [done | done |].
      simpl. lia. }
    destruct (forward_propogate_step fuel h' p q l (Layer.set_values nl vs))
      as (vs' & Hfwd' & _ & Hrec'); try done; [simpl; lia|].
    rewrite Hrec'.
    assert (vs' = vs) as ->.
    { eapply (forwarded_unique l nl); [|exact Hfwd|exact Hfwd']. lia. }
    by rewrite insert_id.
Qed.

(** X14: the forward pass is idempotent on a chain.  For distinct
    layers that form a path, in a heap that satisfies the shape
    invariant and whose layers have as many biases as neurons, the pass
    from the first layer returns, and running it again on the heap it
    returned returns that very heap: the same input gives the same
    activations, and nothing else has changed. *)
Theorem forward_pass_is_idempotent ps h p fuel :
  NoDup ps → path ps h → shape_invariant h → biases_sized h →
  ps !! 0 = Some p → length ps ≤ fuel →
  ∃ h', forward_propogate fuel p h = Ok h' ∧
        forward_propogate fuel p h' = Ok h'.
Proof.
  intros Hnd Hpath Hinv Hb Hp Hfuel.
  destruct (forward_propogate_again ps h Hnd (length ps) 0 p fuel)
    as (h' & Hrun & _ & Hagain); try done; [lia|].
  by exists h'.
Qed.
End again.

(** ** The biases stay what the constructor wrote *)

Section zero.
Context `{FloatOps}.
Implicit Types (h : heap) (l : Layer.t).

Lemma keeps_biases_refl l : keeps_biases l l.
Proof. done. Qed.

Lemma keeps_biases_trans l1 l2 l3 :
  keeps_biases l1 l2 → keeps_biases l2 l3 → keeps_biases l1 l3.
Proof. intros [? ?] [? ?]. split; congruence. Qed.

Lemma zero_biases_kept h h' :
  heap_rel keeps_biases h h' → zero_biases h → zero_biases h'.
Proof.
  intros Hrel Hzero p l' Hl'.
  destruct (heap_rel_lookup_inv _ _ _ _ _ Hrel Hl') as (l & Hl & Hb & Hi).
  rewrite Hb, Hi. by apply (Hzero p).
Qed.

Lemma only_values_keeps_biases l l' : only_values l l' → keeps_biases l l'.
Proof. by intros (vs & -> & _). Qed.

Lemma only_weights_keeps_biases l l' : only_weights l l' → keeps_biases l l'.
Proof. by intros (ws & -> & _). Qed.

Lemma only_links_keeps_biases l l' : only_links l l' → keeps_biases l l'.
Proof. by intros (p & n & ->). Qed.

Lemma only_weights_any_keeps_biases l l' :
  only_weights_any l l' → keeps_biases l l'.
Proof. by intros (ws & ->). Qed.

Lemma add_tail_writes this layer h :
  returns_with (heap_rel only_links h) (add_tail this layer h).
Proof.
  unfold add_tail. case_outcome. apply load_inv in E.
  destruct layer as [q|]; [|done]. case_outcome. apply load_inv in E0.
  eapply heap_rel_trans; [apply only_links_trans | |].
  - eapply heap_rel_insert; [apply only_links_refl | done |].
    exists (Layer.prev a), (Some q). by destruct a.
  - eapply heap_rel_insert; [apply only_links_refl | done |].
    exists (Some this), (Layer.next a0). by destruct a0.
Qed.

Lemma add_writes layer (s : CNN.t * heap) :
  returns_with (λ s' : CNN.t * heap, heap_rel only_links s.2 s'.2)
    (CNN.add layer s).
Proof.
  destruct s as [c h]. unfold CNN.add.
  destruct (CNN.tail c) as [tl|]; simpl;
    [|apply heap_rel_refl, only_links_refl].
  pose proof (add_tail_writes tl layer h) as Hw.
  by destruct (add_tail tl layer h).
Qed.

Lemma train_step_writes fuel input c (x y : vec_t) h :
  returns_with (heap_rel keeps_biases h) (train_step fuel input c x y h).
Proof.
  unfold train_step. case_outcome. apply load_inv in E.
  assert (heap_rel keeps_biases h (<[input := Layer.set_values a x]> h))
    as Hrel1.
  { by eapply heap_rel_insert; [apply keeps_biases_refl | done |]. }
  unfold CNN.forward_propogate. destruct (CNN.head c) as [hd|]; [|done].
  pose proof (forward_propogate_writes fuel hd
                (<[input := Layer.set_values a x]> h)) as Hrel2.
  case_outcome. simpl in Hrel2.
  apply (heap_rel_impl _ keeps_biases) in Hrel2;
    [|apply only_values_keeps_biases].
  unfold CNN.back_propogate. destruct (CNN.tail c) as [tl|]; [|done].
  case_outcome.
  pose proof (back_propogate_writes fuel tl a1 a0) as Hrel3.
  destruct (back_propogate fuel tl a1 a0); simpl in *; try done.
  apply (heap_rel_impl _ keeps_biases) in Hrel3;
    [|apply only_weights_keeps_biases].
  eapply heap_rel_trans; [apply keeps_biases_trans | |done].
  eapply heap_rel_trans; [apply keeps_biases_trans | done | done].
Qed.

Lemma train_writes fuel input c (examples : list (vec_t * vec_t)) h :
  returns_with (heap_rel keeps_biases h) (train fuel input c examples h).
Proof.
  revert h. induction examples as [|[x y] examples IH]; intros h; simpl.
  - apply heap_rel_refl, keeps_biases_refl.
  - pose proof (train_step_writes fuel input c x y h) as Hstep.
    case_outcome. simpl in Hstep. pose proof (IH a) as Hrest.
    destruct (train fuel input c examples a); simpl in *; try done.
    eapply heap_rel_trans; [apply keeps_biases_trans | done | done].
Qed.

Context `{!RandomOps}.

Lemma init_weights_writes this (s : heap * random_device) :
  returns_with (λ s' : heap * random_device, heap_rel only_weights_any s.1 s'.1)
    (init_weights this s).
Proof.
  destruct s as [h rd]. unfold init_weights. case_outcome.
  apply load_inv in E.
  destruct (Layer.next a); [|apply heap_rel_refl, only_weights_any_refl].
  destruct (seed_gen rd) as [gen rd']. case_outcome.
  eapply heap_rel_insert; [apply only_weights_any_refl | done |].
  by eexists.
Qed.

Lemma init_layers_writes ls (s : heap * random_device) :
  returns_with (λ s' : heap * random_device, heap_rel only_weights_any s.1 s'.1)
    (CNN.init_layers ls s).
Proof.
  revert s. induction ls as [|[p|] ls IH]; intros s; simpl; [| |done].
  - apply heap_rel_refl, only_weights_any_refl.
  - pose proof (init_weights_writes p s) as Hp. case_outcome.
    simpl in Hp. pose proof (IH a) as Hrec.
    destruct (CNN.init_layers ls a); simpl in *; try done.
    eapply heap_rel_trans; [apply only_weights_any_trans | done | done].
Qed.

(** X15: the network never gets a bias other than zero.  A layer leaves
    its constructor with one zero bias per neuron, and [add], [init],
    the forward pass, the backward pass and the training loop keep every
    bias and every neuron count: after any sequence of them on
    constructed layers, every bias is still 0.0f. *)
Theorem biases_stay_zero :
  (∀ n m ws bs,
      Layer.biases (Layer.new n m ws bs)
      = replicate (Layer.in_size (Layer.new n m ws bs)) f_zero) ∧
  (∀ h, zero_biases h →
     (∀ layer (c c' : CNN.t) h',
         CNN.add layer (c, h) = Ok (c', h') → zero_biases h') ∧
     (∀ (c : CNN.t) rd s',
         CNN.init c (h, rd) = Ok s' → zero_biases s'.1) ∧
     (∀ fuel (c : CNN.t) h',
         CNN.forward_propogate fuel c h = Ok h' → zero_biases h') ∧
     (∀ fuel (c : CNN.t) labels h',
         CNN.back_propogate fuel c labels h = Ok h' → zero_biases h') ∧
     (∀ fuel input (c : CNN.t) examples h',
         train fuel input c examples h = Ok h' → zero_biases h')).
Proof.
  split.
  { intros. simpl. unfold resize. rewrite take_nil. simpl.
    by rewrite Nat.sub_0_r. }
  intros h Hzero. split_and!.
  - intros layer c c' h' Hrun. pose proof (add_writes layer (c, h)) as Hw.
    rewrite Hrun in Hw. simpl in Hw.
    eapply zero_biases_kept; [|done].
    eapply heap_rel_impl; [apply only_links_keeps_biases | done].
  - intros c rd s' Hrun.
    pose proof (init_layers_writes (CNN.layers c) (h, rd)) as Hw.
    unfold CNN.init in Hrun. rewrite Hrun in Hw. simpl in Hw.
    eapply zero_biases_kept; [|done].
    eapply heap_rel_impl; [apply only_weights_any_keeps_biases | done].
  - intros fuel c h' Hrun. unfold CNN.forward_propogate in Hrun.
    destruct (CNN.head c) as [hd|]; [|done].
    pose proof (forward_propogate_writes fuel hd h) as Hw.
    rewrite Hrun in Hw. simpl in Hw.
    eapply zero_biases_kept; [|done].
    eapply heap_rel_impl; [apply only_values_keeps_biases | done].
  - intros fuel c labels h' Hrun. unfold CNN.back_propogate in Hrun.
    destruct (CNN.tail c) as [tl|]; [|done].
    destruct (CNN.initial_delta tl labels h) as [delta| | |]; [|done..].
    simpl in Hrun.
    pose proof (back_propogate_writes fuel tl delta h) as Hw.
    rewrite Hrun in Hw. simpl in Hw.
    eapply zero_biases_kept; [|done].
    eapply heap_rel_impl; [apply only_weights_keeps_biases | done].
  - intros fuel input c examples h' Hrun.
    pose proof (train_writes fuel input c examples h) as Hw.
    rewrite Hrun in Hw. simpl in Hw.
    by eapply zero_biases_kept.
Qed.
End zero.

(** ** Runs of the rest of the program *)

Lemma net_heap_lookup p (l : @Layer.t real_ops) :
  Sample.net_heap !! p = Some l →
  (p = 1%positive ∧ l = Sample.input) ∨ (p = 2%positive ∧ l = Sample.output).
Proof.
  unfold Sample.net_heap. intros Hp.
  destruct (decide (p = 1%positive)) as [->|Hp1].
  { rewrite lookup_insert_eq in Hp. left. split; congruence. }
  rewrite lookup_insert_ne in Hp by done.
  destruct (decide (p = 2%positive)) as [->|Hp2].
  { rewrite lookup_insert_eq in Hp. right. split; congruence. }
  rewrite lookup_insert_ne in Hp by done. by rewrite lookup_empty in Hp.
Qed.

Lemma main_heap_lookup p (l : @Layer.t real_ops) :
  Sample.main_heap !! p = Some l →
  (p = 1%positive ∧ l = @Layer.new real_ops 2 4 0 0) ∨
  (p = 2%positive ∧ l = @Layer.new real_ops 4 1 0 0) ∨
  (p = 3%positive ∧ l = @Layer.new real_ops 1 1 0 0).
Proof.
  unfold Sample.main_heap. intros Hp.
  destruct (decide (p = 1%positive)) as [->|Hp1].
  { rewrite lookup_insert_eq in Hp. left. split; congruence. }
  rewrite lookup_insert_ne in Hp by done.
  destruct (decide (p = 2%positive)) as [->|Hp2].
  { rewrite lookup_insert_eq in Hp. right. left. split; congruence. }
  rewrite lookup_insert_ne in Hp by done.
  destruct (decide (p = 3%positive)) as [->|Hp3].
  { rewrite lookup_insert_eq in Hp. right. right. split; congruence. }
  rewrite lookup_insert_ne in Hp by done. by rewrite lookup_empty in Hp.
Qed.

Lemma sample_biases_sized : @biases_sized real_ops Sample.net_heap.
Proof. intros p l Hp. by destruct (net_heap_lookup p l Hp) as [[-> ->]|[-> ->]]. Qed.

Lemma sample_back_linked : @back_linked real_ops Sample.net_heap.
Proof.
  intros p l q Hp Hq.
  destruct (net_heap_lookup p l Hp) as [[-> ->]|[-> ->]]; [done|].
  injection Hq as <-. by exists Sample.input.
Qed.

Lemma sample_ends : @ends_within real_ops 2 Sample.net_heap 1.
Proof.
  exists Sample.input. split; [done|]. simpl.
  exists Sample.output. by split.
Qed.

Lemma sample_begins : @begins_within real_ops 2 Sample.net_heap 2.
Proof.
  exists Sample.output. split; [done|]. simpl.
  exists Sample.input. by split.
Qed.

Lemma sample_trainable : @trainable real_ops 2 Sample.net Sample.net_heap.
Proof.
  split_and!.
  - exact example_shape_invariant.
  - exact sample_biases_sized.
  - exact sample_back_linked.
  - exists 1%positive, 2%positive.
    split_and!; [done | done | exact sample_ends | exact sample_begins].
Qed.

Lemma sample_path : @path real_ops [1%positive; 2%positive] Sample.net_heap.
Proof.
  intros i p Hp. destruct i as [|[|i]]; simplify_eq/=.
  - by exists Sample.input.
  - by exists Sample.output.
Qed.

Lemma sample_forward_run :
  ∃ h', @forward_propogate real_ops 2 1 Sample.net_heap = Ok h'.
Proof.
  destruct (@forward_propogate_step real_ops 1 Sample.net_heap
              1%positive 2%positive Sample.input Sample.output)
    as (vs & _ & _ & Hrec);
    [discriminate | reflexivity | reflexivity | reflexivity | reflexivity
    | exact example_linked | simpl; lia |].
  eexists. rewrite Hrec.
  eapply forward_propogate_tail; [apply lookup_insert_eq | reflexivity].
Qed.

Lemma size_checks_witness :
  @dot real_ops [1; 2]%R [3]%R = Thrown "different sizes" ∧
  @error real_ops [1; 2]%R [3; 4]%R = Undefined.
Proof.
  split.
  - apply (proj1 (@size_checks real_ops [1; 2]%R [3]%R)). simpl. lia.
  - apply (proj1 (proj2 (@size_checks real_ops [1; 2]%R [3; 4]%R))).
    reflexivity.
Defined.

Lemma df_at_one_hot_witness :
  (∃ v : list R, @df_at real_ops [1 / 2; 1 / 4]%R 1 = Ok v ∧ length v = 2) ∧
  @df_at real_ops [1 / 2; 1 / 4]%R 2 = Undefined.
Proof.
  split.
  - destruct (proj1 (@df_at_one_hot real_ops [1 / 2; 1 / 4]%R 1) (1 / 4)%R)
      as (v & Hv & Hlen & _); [reflexivity|].
    exists v. split; [exact Hv | exact Hlen].
  - apply (proj2 (@df_at_one_hot real_ops [1 / 2; 1 / 4]%R 2)). simpl. lia.
Defined.

Lemma print_weights_swaps_its_bounds_witness :
  @print_weights real_ops 1 Sample.net_heap []
  = Ok [(0%R, 0, 0); (0%R, 0, 1); (0%R, 1, 0); (0%R, 1, 1)] ∧
  @print_weights real_ops 1 Wide.heap_ [] = Undefined ∧
  @print_weights real_ops 2 Sample.net_heap [] = Ok [].
Proof.
  split_and!.
  - apply (proj1 (proj2 (@print_weights_swaps_its_bounds real_ops
             Sample.net_heap 1%positive Sample.input [] eq_refl)
             ltac:(by eexists) eq_refl ltac:(repeat constructor))).
    reflexivity.
  - apply (proj2 (proj2 (@print_weights_swaps_its_bounds real_ops
             Wide.heap_ 1%positive Wide.layer [] eq_refl)
             ltac:(by eexists) eq_refl ltac:(repeat constructor)));
      simpl; lia.
  - apply (proj1 (@print_weights_swaps_its_bounds real_ops
             Sample.net_heap 2%positive Sample.output [] eq_refl)).
    reflexivity.
Defined.

Lemma forward_pass_writes_activations_only_witness :
  ∃ h', @forward_propogate real_ops 2 1 Sample.net_heap = Ok h' ∧
        @heap_rel real_ops only_values Sample.net_heap h'.
Proof.
  destruct sample_forward_run as [h' Hrun]. exists h'.
  split; [exact Hrun|].
  exact (proj1 (@forward_pass_writes_activations_only real_ops)
           2 1%positive Sample.net_heap h' Hrun).
Defined.

Lemma backward_pass_writes_weights_only_witness :
  ∃ h', @CNN.back_propogate real_ops 2 Sample.net [1; 1]%R Sample.net_heap
        = Ok h' ∧
        @heap_rel real_ops only_weights Sample.net_heap h'.
Proof.
  destruct (example_back_propogate [1; 1]%R) as (ws' & Hcall & _);
    [simpl; lia|].
  eexists. split; [exact Hcall|].
  exact (proj2 (@backward_pass_writes_weights_only real_ops)
           2 Sample.net [1; 1]%R Sample.net_heap _ Hcall).
Defined.

Lemma forward_pass_returns_witness :
  ∃ h', @forward_propogate real_ops 2 1 Sample.net_heap = Ok h' ∧
        @shape_invariant real_ops h'.
Proof.
  destruct (@forward_pass_returns real_ops 2 2 Sample.net_heap 1%positive
              example_shape_invariant sample_biases_sized sample_ends)
    as (h' & Hrun & Hinv & _); [lia|].
  exists h'. split; [exact Hrun | exact Hinv].
Defined.

Lemma backward_pass_returns_witness :
  ∃ h', @back_propogate real_ops 2 2 [1; 1]%R Sample.net_heap = Ok h' ∧
        @shape_invariant real_ops h'.
Proof.
  destruct (@backward_pass_returns real_ops 2 2 Sample.net_heap 2%positive
              Sample.output [1; 1]%R
              example_shape_invariant sample_back_linked sample_begins)
    as (h' & Hrun & Hinv & _); [lia | reflexivity | simpl; lia |].
  exists h'. split; [exact Hrun | exact Hinv].
Defined.

Lemma training_returns_witness :
  ∃ h', @train real_ops 2 1 Sample.net Wide.examples Sample.net_heap = Ok h' ∧
        @trainable real_ops 2 Sample.net h'.
Proof.
  destruct (@training_returns real_ops 2 2 1%positive 2%positive Sample.net
              Wide.examples Sample.net_heap Sample.input Sample.output
              sample_trainable)
    as (h' & Hrun & Htr & _);
    [lia | reflexivity | reflexivity | reflexivity | reflexivity | |].
  - repeat constructor; simpl; lia.
  - exists h'. split; [exact Hrun | exact Htr].
Defined.


Lemma main_layers_distinct : NoDup [1%positive; 2%positive; 3%positive].
Proof. apply NoDup_ListNoDup. repeat constructor; simpl; intuition discriminate. Qed.

Lemma main_layers_live p :
  p ∈ [1%positive; 2%positive; 3%positive] →
  is_Some (Sample.main_heap !! p).
Proof.
  intros Hp. apply list_elem_of_In in Hp. simpl in Hp.
  destruct Hp as [<-|[<-|[<-|[]]]]; eexists; reflexivity.
Qed.

Lemma add_writes_the_links_only_witness :
  ∃ h', @CNN.add_all real_ops
          [Some 1%positive; Some 2%positive; Some 3%positive]
          (CNN.mk [], Sample.main_heap)
        = Ok (Sample.main_net, h') ∧
        ∃ l', h' !! 2%positive = Some l' ∧
              Layer.prev l' = Some 1%positive ∧
              Layer.next l' = Some 3%positive ∧
              Layer.values l' = [0; 0; 0; 0]%R.
Proof.
  destruct (@add_writes_the_links_only real_ops
              [1%positive; 2%positive; 3%positive] Sample.main_heap
              main_layers_distinct main_layers_live)
    as (h' & Hadd & _ & Hin).
  exists h'. split; [exact Hadd|].
  destruct (Hin 1 2%positive (@Layer.new real_ops 4 1 0 0) eq_refl eq_refl)
    as (l' & Hl' & Hprev & Hnext & Hvalues & _).
  exists l'. split; [exact Hl'|]. split; [exact Hprev|].
  split; [exact Hnext | exact Hvalues].
Defined.

Lemma main_heap_only p :
  is_Some (Sample.main_heap !! p) → p ∈ [1%positive; 2%positive; 3%positive].
Proof.
  intros [l Hl]. destruct (main_heap_lookup p l Hl) as [[-> _]|[[-> _]|[-> _]]];
    set_solver.
Qed.

Lemma main_sizes_chain i p :
  [1%positive; 2%positive; 3%positive] !! i = Some p →
  ∃ n m ws bs, Sample.main_heap !! p = Some (@Layer.new real_ops n m ws bs) ∧
    ∀ q lq, [1%positive; 2%positive; 3%positive] !! S i = Some q →
            Sample.main_heap !! q = Some lq → Layer.in_size lq = m.
Proof.
  intros Hp. destruct i as [|[|[|i]]]; simplify_eq/=.
  - exists 2, 4, 0, 0. split; [done|]. intros q lq [= <-] Hq.
    by destruct (main_heap_lookup _ _ Hq) as [[? ->]|[[? ->]|[? ->]]].
  - exists 4, 1, 0, 0. split; [done|]. intros q lq [= <-] Hq.
    by destruct (main_heap_lookup _ _ Hq) as [[? ->]|[[? ->]|[? ->]]].
  - exists 1, 1, 0, 0. split; [done|]. intros q lq [=].
Qed.

Lemma construction_is_trainable_witness :
  ∃ (c : CNN.t) h1 (s2 : gmap positive (@Layer.t real_ops) * nat),
    @CNN.add_all real_ops
      [Some 1%positive; Some 2%positive; Some 3%positive]
      (CNN.mk [], Sample.main_heap) = Ok (c, h1) ∧
    @CNN.init real_ops real_random c (h1, 0) = Ok s2 ∧
    @trainable real_ops 3 c s2.1.
Proof.
  destruct (@construction_is_trainable real_ops real_random
              [1%positive; 2%positive; 3%positive] Sample.main_heap 0)
    as (c & h1 & s2 & Hadd & Hinit & Htr).
  - discriminate.
  - exact main_layers_distinct.
  - exact main_heap_only.
  - exact main_sizes_chain.
  - exists c, h1, s2. split; [exact Hadd|]. split; [exact Hinit | exact Htr].
Defined.

Lemma short_labels_are_read_out_of_range_witness :
  @CNN.back_propogate real_ops 2 Sample.net [1]%R Sample.net_heap = Undefined.
Proof.
  apply (@short_labels_are_read_out_of_range real_ops 2 Sample.net
           Sample.net_heap 2%positive Sample.output [1]%R);
    [reflexivity | reflexivity | reflexivity | simpl; lia].
Defined.

Lemma nor_label_is_nor_witness : nor_label 2 4 = true ∧ nor_label 2 5 = false.
Proof.
  split.
  - by apply (proj1 (nor_label_is_nor 2 4)).
  - destruct (nor_label 2 5) eqn:Hl; [|reflexivity].
    apply (proj1 (nor_label_is_nor 2 5)) in Hl as [_ Hodd]. discriminate.
Defined.

Lemma forward_pass_is_idempotent_witness :
  ∃ h', @forward_propogate real_ops 2 1 Sample.net_heap = Ok h' ∧
        @forward_propogate real_ops 2 1 h' = Ok h'.
Proof.
  apply (@forward_pass_is_idempotent real_ops [1%positive; 2%positive]
           Sample.net_heap 1%positive 2).
  - apply NoDup_ListNoDup. repeat constructor; simpl; intuition discriminate.
  - exact sample_path.
  - exact example_shape_invariant.
  - exact sample_biases_sized.
  - reflexivity.
  - simpl. lia.
Defined.

Lemma main_wired_zero_biases : @zero_biases real_ops Sample.main_wired.
Proof.
  intros p l Hp. unfold Sample.main_wired in Hp.
  destruct (decide (p = 1%positive)) as [->|Hp1].
  { rewrite lookup_insert_eq in Hp. by injection Hp as <-. }
  rewrite lookup_insert_ne in Hp by done.
  destruct (decide (p = 2%positive)) as [->|Hp2].
  { rewrite lookup_insert_eq in Hp. by injection Hp as <-. }
  rewrite lookup_insert_ne in Hp by done.
  destruct (decide (p = 3%positive)) as [->|Hp3].
  { rewrite lookup_insert_eq in Hp. by injection Hp as <-. }
  rewrite lookup_insert_ne in Hp by done. by rewrite lookup_empty in Hp.
Qed.

Lemma biases_stay_zero_witness :
  ∃ s' : gmap positive (@Layer.t real_ops) * nat,
    @CNN.init real_ops real_random Sample.main_net (Sample.main_wired, 0)
    = Ok s' ∧
    @zero_biases real_ops s'.1.
Proof.
  eexists. split; [reflexivity|].
  apply (proj1 (proj2 (proj2 (@biases_stay_zero real_ops real_random)
                         Sample.main_wired main_wired_zero_biases))
           Sample.main_net 0).
  reflexivity.
Defined.
